(** * fpstudy: the 8-bit P3109 codec, its wrapper type, the precision
      registry and the precision-generic kernels

    A shallow embedding of [formats/quantize.hpp], [formats/precision.hpp],
    [formats/precision.cpp], [algorithms/fir.hpp],
    [algorithms/gradient_descent.hpp] and [algorithms/newton.hpp].

    C++ [float] and [double] are IEEE-754 binary32 and binary64.  They are
    modelled by [spec_float], the executable specification of IEEE
    arithmetic of the Standard Library (round to nearest, ties to even),
    at precision 24 / emax 128 and precision 53 / emax 1024.  A NaN carries
    no sign or payload in [spec_float]; no function below looks at either. *)

From Stdlib Require Import ZArith List Bool Lia Ascii String.
From Stdlib Require Import Floats.SpecFloat.
From stdpp Require Import base option list strings gmap.

Local Open Scope Z_scope.

(** ** IEEE binary32: the C++ [float] *)

Definition float : Type := spec_float.

Module f32.
Definition prec : Z := 24.
Definition emax : Z := 128.

Definition valid (f : float) : bool := valid_binary prec emax f.

(** [static_cast<float>(int)] for an integer that a [float] holds exactly
    or rounds to. *)
Definition of_int (z : Z) : float := binary_normalize prec emax z 0 false.

Definition zero : float := S754_zero false.
Definition add : float -> float -> float := SFadd prec emax.
Definition sub : float -> float -> float := SFsub prec emax.
Definition mul : float -> float -> float := SFmul prec emax.
Definition div : float -> float -> float := SFdiv prec emax.
Definition neg : float -> float := SFopp.
Definition eqb : float -> float -> bool := SFeqb.
Definition ltb : float -> float -> bool := SFltb.

(** [std::isnan], [std::isinf], [std::signbit], [std::fabs]. *)
Definition isnan (f : float) : bool :=
  match f with S754_nan => true | _ => false end.
Definition isinf (f : float) : bool :=
  match f with S754_infinity _ => true | _ => false end.
Definition signbit (f : float) : bool :=
  match f with
  | S754_zero s | S754_infinity s | S754_finite s _ _ => s
  | S754_nan => false
  end.
Definition fabs : float -> float := SFabs.

(** [std::frexp]: a mantissa in [[0.5, 1)] and the exponent. *)
Definition frexp : float -> float * Z := SFfrexp prec emax.
(** [std::ldexp]. *)
Definition ldexp : float -> Z -> float := SFldexp prec emax.

(** [std::round]: to the nearest integer, halfway cases away from zero;
    the result is again a [float]. *)
Definition round (f : float) : float :=
  match f with
  | S754_finite s m e =>
      if 0 <=? e then f
      else
        let q := (Z.pos m + 2 ^ (- e - 1)) / 2 ^ (- e) in
        match q with
        | 0 => S754_zero s
        | _ => binary_normalize prec emax (cond_Zopp s q) 0 s
        end
  | _ => f
  end.

(** [static_cast<int>(float)]: truncation toward zero.  The conversion of
    a NaN, an infinity or a value outside the range of [int] is undefined
    in C++; the model returns INT_MIN for the first two (what x86
    produces) and the mathematical integer for the last. *)
Definition to_int (f : float) : Z :=
  match f with
  | S754_zero _ => 0
  | S754_finite s m e =>
      cond_Zopp s (if 0 <=? e then Z.pos m * 2 ^ e else Z.pos m / 2 ^ (- e))
  | _ => - 2 ^ 31
  end.
End f32.

(** ** formats/quantize.hpp *)

Record P3109Layout : Type := {
  exponent_bits : Z;
  mantissa_bits : Z;
  exponent_bias : Z
}.

(** The default member initialisers of [struct P3109Layout]. *)
Definition default_layout : P3109Layout :=
  {| exponent_bits := 3; mantissa_bits := 4; exponent_bias := 3 |}.

(** Conversion of an [int] to [uint8_t]. *)
Definition to_uint8 (z : Z) : Z := z mod 256.

(** The two [return] statements taken on overflow:
    [(sign < 0 ? 0x80 : 0x00) | ((max_exp + 1) << mantissa_bits) - 1];
    [-] binds tighter than [|]. *)
Definition saturate (layout : P3109Layout) (sign : float) (max_exp : Z) : Z :=
  to_uint8 (Z.lor (if f32.ltb sign f32.zero then 0x80 else 0x00)
                  (Z.shiftl (max_exp + 1) (mantissa_bits layout) - 1)).

(** The last three statements of [p3109_quantize]: the sign bit, the
    exponent field cast to [uint8_t], and the byte they make with the
    mantissa. *)
Definition pack (layout : P3109Layout) (sign : float) (exp_val mantissa : Z)
  : Z :=
  let sign_bit := if f32.ltb sign f32.zero then 0x80 else 0x00 in
  let exponent_field := to_uint8 (Z.shiftl exp_val (mantissa_bits layout)) in
  to_uint8 (Z.lor (Z.lor sign_bit exponent_field) mantissa).

Definition p3109_quantize_with (layout : P3109Layout) (value : float) : Z :=
  if f32.isnan value then 0xFF
  else if f32.isinf value then
    (if f32.ltb f32.zero value then 0x7F else 0xFE)
  else
    let sign := if f32.signbit value then f32.of_int (-1) else f32.of_int 1 in
    let abs_v := f32.fabs value in
    if f32.eqb abs_v f32.zero then
      (if f32.signbit value then 0x80 else 0x00)
    else
      let '(mant, exp) := f32.frexp abs_v in
      let bias := exponent_bias layout in
      let exp_val := exp + bias - 1 in
      let max_exp := Z.shiftl 1 (exponent_bits layout) - 2 in
      let min_exp := 1 in
      if exp_val >? max_exp then saturate layout sign max_exp
      else if exp_val <? min_exp then
        (if f32.signbit value then 0x80 else 0x00)
      else
        let mantissa_mask := Z.shiftl 1 (mantissa_bits layout) - 1 in
        let scaled := f32.sub (f32.mul mant (f32.of_int 2)) (f32.of_int 1) in
        let mantissa :=
          f32.to_int
            (f32.round (f32.mul scaled (f32.of_int (mantissa_mask + 1)))) in
        if mantissa >? mantissa_mask then
          let mantissa := 0 in
          let exp_val := exp_val + 1 in
          if exp_val >? max_exp then saturate layout sign max_exp
          else pack layout sign exp_val mantissa
        else pack layout sign exp_val mantissa.

Definition p3109_quantize : float -> Z := p3109_quantize_with default_layout.

Definition p3109_dequantize_with (layout : P3109Layout) (code : Z) : float :=
  if code =? 0xFF then S754_nan
  else if code =? 0x7F then S754_infinity false
  else if code =? 0xFE then S754_infinity true
  else
    let negative := negb (Z.land code 0x80 =? 0) in
    let mantissa_mask := Z.shiftl 1 (mantissa_bits layout) - 1 in
    let exponent_mask := Z.shiftl 1 (exponent_bits layout) - 1 in
    let exponent :=
      Z.land (Z.shiftr code (mantissa_bits layout)) exponent_mask in
    let mantissa := Z.land code mantissa_mask in
    if exponent =? 0 then S754_zero negative
    else
      let mant :=
        f32.add (f32.of_int 1)
                (f32.div (f32.of_int mantissa)
                         (f32.of_int (mantissa_mask + 1))) in
      let exp := exponent - exponent_bias layout in
      let value := f32.ldexp mant exp in
      if negative then f32.neg value else value.

Definition p3109_dequantize : Z -> float := p3109_dequantize_with default_layout.


(** ** IEEE binary64: the C++ [double] *)

Definition double : Type := spec_float.

Module f64.
Definition prec : Z := 53.
Definition emax : Z := 1024.

(** The [double] of value [m * 2^e]; every literal below is of this
    form. *)
Definition lit (m e : Z) : double := binary_normalize prec emax m e false.

Definition zero : double := S754_zero false.
Definition add : double -> double -> double := SFadd prec emax.
Definition sub : double -> double -> double := SFsub prec emax.
Definition mul : double -> double -> double := SFmul prec emax.
Definition div : double -> double -> double := SFdiv prec emax.
Definition sqrt : double -> double := SFsqrt prec emax.
Definition fabs : double -> double := SFabs.
Definition eqb : double -> double -> bool := SFeqb.
Definition ltb : double -> double -> bool := SFltb.

(** [static_cast<float>(double)]: rounding to binary32. *)
Definition to_float (d : double) : float :=
  match d with
  | S754_finite s m e => binary_round f32.prec f32.emax s m e
  | _ => d
  end.

(** [static_cast<double>(float)]: exact. *)
Definition of_float (f : float) : double :=
  match f with
  | S754_finite s m e => binary_round prec emax s m e
  | _ => f
  end.
End f64.

(** ** formats/precision.hpp: [class P3109Number] *)

Record P3109Number : Type := { value_ : Z }.

(** The static member [accumulate_in_fp32_], the only state of the
    process that the wrapper reads; [initial_globals] is its initialiser. *)
Record Globals : Type := { accumulate_in_fp32_ : bool }.

Definition initial_globals : Globals := {| accumulate_in_fp32_ := true |}.

Definition set_accumulate_fp32 (flag : bool) (g : Globals) : Globals :=
  {| accumulate_in_fp32_ := flag |}.

Definition accumulate_fp32 (g : Globals) : bool := accumulate_in_fp32_ g.

Module P3109.
(** Constructors, the [explicit P3109Number(uint8_t raw)] last. *)
Definition default : P3109Number := {| value_ := 0 |}.
Definition of_float (v : float) : P3109Number :=
  {| value_ := p3109_quantize v |}.
Definition of_double (v : double) : P3109Number :=
  {| value_ := p3109_quantize (f64.to_float v) |}.
Definition of_int (v : Z) : P3109Number :=
  {| value_ := p3109_quantize (f32.of_int v) |}.
Definition of_raw (raw : Z) : P3109Number := {| value_ := raw |}.

(** [operator float] and [operator double]. *)
Definition to_float (x : P3109Number) : float := p3109_dequantize (value_ x).
Definition to_double (x : P3109Number) : double :=
  f64.of_float (p3109_dequantize (value_ x)).

Definition raw (x : P3109Number) : Z := value_ x.

(** The body shared by [operator+=], [-=], [*=] and [/=], which differ
    in the [float] operation only. *)
Definition compound (op : float -> float -> float) (g : Globals)
    (self other : P3109Number) : P3109Number :=
  let lhs := p3109_dequantize (value_ self) in
  let rhs := p3109_dequantize (value_ other) in
  let res :=
    if accumulate_in_fp32_ g then op lhs rhs
    else p3109_dequantize (p3109_quantize (op lhs rhs)) in
  {| value_ := p3109_quantize res |}.

Definition add_assign := compound f32.add.
Definition sub_assign := compound f32.sub.
Definition mul_assign := compound f32.mul.
Definition div_assign := compound f32.div.

(** The free operators copy [lhs], apply the compound assignment and
    return the copy. *)
Definition add (g : Globals) (lhs rhs : P3109Number) := add_assign g lhs rhs.
Definition sub (g : Globals) (lhs rhs : P3109Number) := sub_assign g lhs rhs.
Definition mul (g : Globals) (lhs rhs : P3109Number) := mul_assign g lhs rhs.
Definition div (g : Globals) (lhs rhs : P3109Number) := div_assign g lhs rhs.

(** Unary [operator-]. *)
Definition neg (x : P3109Number) : P3109Number :=
  let val := f32.neg (p3109_dequantize (value_ x)) in
  {| value_ := p3109_quantize val |}.
End P3109.

(** The four binary operators, for statements that range over them. *)
Inductive binop : Type := OpAdd | OpSub | OpMul | OpDiv.

Definition float_op (o : binop) : float -> float -> float :=
  match o with
  | OpAdd => f32.add
  | OpSub => f32.sub
  | OpMul => f32.mul
  | OpDiv => f32.div
  end.

Definition apply_binop (o : binop)
  : Globals -> P3109Number -> P3109Number -> P3109Number :=
  match o with
  | OpAdd => P3109.add
  | OpSub => P3109.sub
  | OpMul => P3109.mul
  | OpDiv => P3109.div
  end.

(** ** formats/precision.cpp: the registry *)

Inductive Precision : Type := FP64 | FP32 | TF32 | BF16 | P3109_8.

(** A call either returns or throws [std::runtime_error(what)]. *)
Inductive outcome (A : Type) : Type :=
| Returns (a : A)
| Throws (what : string).
Arguments Returns {A} a.
Arguments Throws {A} what.

(** [std::tolower] on an [unsigned char], in the "C" locale. *)
Definition tolower (c : ascii) : ascii :=
  let n := nat_of_ascii c in
  if (65 <=? n)%nat && (n <=? 90)%nat then ascii_of_nat (n + 32) else c.

Fixpoint to_lower (name : string) : string :=
  match name with
  | EmptyString => EmptyString
  | String c rest => String (tolower c) (to_lower rest)
  end.

Definition precision_to_string (p : Precision) : string :=
  match p with
  | FP64 => "fp64"
  | FP32 => "fp32"
  | TF32 => "tf32"
  | BF16 => "bf16"
  | P3109_8 => "p3109_8"
  end.

(** The initialiser list of the static [unordered_map]. *)
Definition precision_table : list (string * Precision) :=
  [ ("fp64", FP64); ("float64", FP64);
    ("fp32", FP32); ("float32", FP32);
    ("tf32", TF32); ("tensorfloat32", TF32);
    ("bf16", BF16); ("bfloat16", BF16);
    ("p3109", P3109_8); ("p3109_8", P3109_8) ]%string.

Definition precision_map : gmap string Precision :=
  list_to_map precision_table.

Definition precision_from_string (name : string) : outcome Precision :=
  let lower := to_lower name in
  match precision_map !! lower with
  | None => Throws ("Unknown precision string: " ++ name)
  | Some p => Returns p
  end.

Definition all_precisions : list Precision := [FP64; FP32; TF32; BF16; P3109_8].

(** ** The numeric types the kernels are instantiated at

    The kernel templates use of [T]: value initialisation [T{}], the four
    operators, and the conversions to and from [double] and [float]. *)
Class Numeric (T : Type) : Type := {
  num_zero : T;
  num_add : T -> T -> T;
  num_sub : T -> T -> T;
  num_mul : T -> T -> T;
  num_div : T -> T -> T;
  num_of_double : double -> T;
  num_to_double : T -> double;
  num_of_float : float -> T;
  num_to_float : T -> float
}.

#[export] Instance double_numeric : Numeric double := {|
  num_zero := f64.zero;
  num_add := f64.add;
  num_sub := f64.sub;
  num_mul := f64.mul;
  num_div := f64.div;
  num_of_double := fun d => d;
  num_to_double := fun d => d;
  num_of_float := f64.of_float;
  num_to_float := f64.to_float
|}.

(** [P3109Number] under a given state of the accumulation flag. *)
Definition p3109_numeric (g : Globals) : Numeric P3109Number := {|
  num_zero := P3109.default;
  num_add := P3109.add g;
  num_sub := P3109.sub g;
  num_mul := P3109.mul g;
  num_div := P3109.div g;
  num_of_double := P3109.of_double;
  num_to_double := P3109.to_double;
  num_of_float := P3109.of_float;
  num_to_float := P3109.to_float
|}.

(** [v[i]] on a [std::vector<T>].  Out of range the C++ behaviour is
    undefined; the model reads [T{}] there, and a write [<[i:=a]> v] out of
    range is dropped. *)
Definition at_ {T : Type} `{Numeric T} (v : list T) (i : nat) : T :=
  default num_zero (v !! i).

(** ** algorithms/fir.hpp *)

Module fir.
Record FIROptions : Type := {
  use_kahan : bool;
  accumulate_in_fp32 : bool
}.

Definition default_options : FIROptions :=
  {| use_kahan := false; accumulate_in_fp32 := false |}.

Section Kernel.
Context {T : Type} `{Numeric T}.

(** One trip of the [k] loop of the [float] branch, on the pair
    [(sum, compensation)]. *)
Definition tap_fp32 (opts : FIROptions) (h x : list T) (n : nat)
    (st : float * float) (k : nat) : float * float :=
  let '(sum, compensation) := st in
  if (k <=? n)%nat then
    let hk := num_to_float (at_ h k) in
    let xnk := num_to_float (at_ x (n - k)) in
    let prod := f32.mul hk xnk in
    if use_kahan opts then
      let y_val := f32.sub prod compensation in
      let t := f32.add sum y_val in
      (t, f32.sub (f32.sub t sum) y_val)
    else (f32.add sum prod, compensation)
  else st.

(** One trip of the [k] loop of the [T] branch. *)
Definition tap (opts : FIROptions) (h x : list T) (n : nat)
    (st : T * T) (k : nat) : T * T :=
  let '(sum, compensation) := st in
  if (k <=? n)%nat then
    let prod := num_mul (at_ h k) (at_ x (n - k)) in
    if use_kahan opts then
      let y_val := num_sub prod compensation in
      let t := num_add sum y_val in
      (t, num_sub (num_sub t sum) y_val)
    else (num_add sum prod, compensation)
  else st.

Definition fir_filter (h x : list T) (opts : FIROptions) : list T :=
  let M := length h in
  let N := length x in
  let y := replicate N num_zero in
  fold_left
    (fun y n =>
       if accumulate_in_fp32 opts then
         let '(sum, _) :=
           fold_left (tap_fp32 opts h x n) (seq 0 M)
                     (f32.zero, f32.zero) in
         <[n := num_of_float sum]> y
       else
         let '(sum, _) :=
           fold_left (tap opts h x n) (seq 0 M) (num_zero, num_zero) in
         <[n := sum]> y)
    (seq 0 N) y.
End Kernel.
End fir.

(** ** algorithms/gradient_descent.hpp *)

Module gradient_descent.
Record GradientDescentOptions : Type := {
  step_size : double;
  max_iters : nat;
  tol : double
}.

Record GradientDescentResult (T : Type) : Type := {
  x : list T;
  iterations : nat;
  converged : bool
}.
Arguments x {T} _.
Arguments iterations {T} _.
Arguments converged {T} _.

Section Kernel.
Context {T : Type} `{Numeric T}.
Variables (Q b : list T) (dim : nat) (opts : GradientDescentOptions).

(** The first [for i] loop: [gradient = Q x + b], written in place. *)
Definition compute_gradient (x gradient : list T) : list T :=
  fold_left
    (fun gradient i =>
       let acc :=
         fold_left
           (fun acc j => num_add acc (num_mul (at_ Q (i * dim + j)) (at_ x j)))
           (seq 0 dim) num_zero in
       <[i := num_add acc (at_ b i)]> gradient)
    (seq 0 dim) gradient.

(** The range-for over [gradient] and the square root. *)
Definition grad_norm (gradient : list T) : double :=
  f64.sqrt
    (fold_left
       (fun grad_norm g =>
          let gd := num_to_double g in
          f64.add grad_norm (f64.mul gd gd))
       gradient f64.zero).

(** The second [for i] loop: the update of [x], in place. *)
Definition update (x gradient : list T) : list T :=
  fold_left
    (fun x i =>
       <[i := num_sub (at_ x i)
                (num_mul (num_of_double (step_size opts)) (at_ gradient i))]> x)
    (seq 0 dim) x.

(** The [for iter] loop; [fuel] is [max_iters - iter]. *)
Fixpoint loop (fuel iter : nat) (x gradient : list T)
  : GradientDescentResult T :=
  match fuel with
  | O => {| x := x; iterations := max_iters opts; converged := false |}
  | S fuel' =>
      let gradient := compute_gradient x gradient in
      if f64.ltb (grad_norm gradient) (tol opts) then
        {| x := x; iterations := iter; converged := true |}
      else loop fuel' (S iter) (update x gradient) gradient
  end.

Definition gradient_descent_quadratic (initial : list T)
  : GradientDescentResult T :=
  loop (max_iters opts) 0%nat initial (replicate dim num_zero).

(** Vocabulary for the statements: the state [(x, gradient)] at the
    head of iteration [k], and the stopping criterion there. *)
Definition stops (st : list T * list T) : bool :=
  f64.ltb (grad_norm (compute_gradient (fst st) (snd st))) (tol opts).

Definition next (st : list T * list T) : list T * list T :=
  let gradient := compute_gradient (fst st) (snd st) in
  (update (fst st) gradient, gradient).

Definition state_at (initial : list T) (k : nat) : list T * list T :=
  Nat.iter k next (initial, replicate dim num_zero).
End Kernel.
End gradient_descent.

(** ** algorithms/newton.hpp *)

Module newton.
Record NewtonOptions : Type := {
  max_iters : nat;
  tol : double
}.

Record NewtonResult (T : Type) : Type := {
  root : T;
  iterations : nat;
  converged : bool
}.
Arguments root {T} _.
Arguments iterations {T} _.
Arguments converged {T} _.

Section Kernel.
Context {T : Type} `{Numeric T}.
(** [f] and [df] are the callables; they are taken to be pure. *)
Variables (f df : T -> T) (opts : NewtonOptions).

(** The [for iter] loop; [fuel] is [max_iters - iter]. *)
Fixpoint loop (fuel iter : nat) (x : T) : NewtonResult T :=
  match fuel with
  | O => {| root := x; iterations := max_iters opts; converged := false |}
  | S fuel' =>
      let fx := f x in
      let dfx := df x in
      let abs_fx := f64.fabs (num_to_double fx) in
      if f64.ltb abs_fx (tol opts) then
        {| root := x; iterations := iter; converged := true |}
      else if f64.eqb (num_to_double dfx) f64.zero then
        {| root := x; iterations := iter; converged := false |}
      else loop fuel' (S iter) (num_sub x (num_div fx dfx))
  end.

Definition newton_raphson (initial : T) : NewtonResult T :=
  loop (max_iters opts) 0%nat initial.

(** Vocabulary for the statements: the two tests of the loop body, the
    update, and the iterate at the head of iteration [k]. *)
Definition criterion (x : T) : bool :=
  f64.ltb (f64.fabs (num_to_double (f x))) (tol opts).

Definition derivative_zero (x : T) : bool :=
  f64.eqb (num_to_double (df x)) f64.zero.

Definition step (x : T) : T := num_sub x (num_div (f x) (df x)).

Definition iterate (initial : T) (k : nat) : T := Nat.iter k step initial.
End Kernel.
End newton.

(** ** formats/precision.hpp: the vector conversions

    [cast_vector<T>] and [to_double_vector<T>]; the specialisations of the
    first construct [T(v)] where the primary template writes
    [static_cast<T>(v)], the same conversion. *)
Definition cast_vector {T : Type} `{Numeric T} (input : list double) : list T :=
  map num_of_double input.

Definition to_double_vector {T : Type} `{Numeric T} (input : list T)
  : list double :=
  map num_to_double input.

(** ** algorithms/matmul.hpp *)

Module matmul.
Record MatMulOptions : Type := {
  use_kahan : bool;
  accumulate_in_fp32 : bool
}.

Definition default_options : MatMulOptions :=
  {| use_kahan := false; accumulate_in_fp32 := false |}.

Section Kernel.
Context {T : Type} `{Numeric T}.

(** One trip of the [k] loop of the [float] branch, on
    [(sum, compensation)]. *)
Definition term_fp32 (opts : MatMulOptions) (A B : list T) (n i j : nat)
    (st : float * float) (k : nat) : float * float :=
  let '(sum, compensation) := st in
  let prod :=
    f32.mul (num_to_float (at_ A (i * n + k)))
            (num_to_float (at_ B (k * n + j))) in
  if use_kahan opts then
    let y := f32.sub prod compensation in
    let t := f32.add sum y in
    (t, f32.sub (f32.sub t sum) y)
  else (f32.add sum prod, compensation).

(** One trip of the [k] loop of the [T] branch. *)
Definition term (opts : MatMulOptions) (A B : list T) (n i j : nat)
    (st : T * T) (k : nat) : T * T :=
  let '(sum, compensation) := st in
  let prod := num_mul (at_ A (i * n + k)) (at_ B (k * n + j)) in
  if use_kahan opts then
    let y := num_sub prod compensation in
    let t := num_add sum y in
    (t, num_sub (num_sub t sum) y)
  else (num_add sum prod, compensation).

(** The value stored in [C[i * n + j]]. *)
Definition cell (opts : MatMulOptions) (A B : list T) (n i j : nat) : T :=
  if accumulate_in_fp32 opts then
    let '(sum, _) :=
      fold_left (term_fp32 opts A B n i j) (seq 0 n) (f32.zero, f32.zero) in
    num_of_float sum
  else
    let '(sum, _) :=
      fold_left (term opts A B n i j) (seq 0 n) (num_zero, num_zero) in
    sum.

Definition matmul_square (A B : list T) (n : nat) (opts : MatMulOptions)
  : list T :=
  let C := replicate (n * n) num_zero in
  fold_left
    (fun C i =>
       fold_left (fun C j => <[(i * n + j)%nat := cell opts A B n i j]> C)
                 (seq 0 n) C)
    (seq 0 n) C.
End Kernel.
End matmul.

(** ** core/metrics.hpp *)

Module metrics.
Definition vector_norm (v : list double) : double :=
  f64.sqrt (fold_left (fun accum x => f64.add accum (f64.mul x x)) v f64.zero).

(** [std::max(a, b)] is [(a < b) ? b : a]. *)
Definition max (a b : double) : double := if f64.ltb a b then b else a.

Definition relative_error (truth approx : list double) (eps : double)
  : outcome double :=
  if negb (length truth =? length approx)%nat then
    Throws "Vector size mismatch in relative_error"
  else
    let diff :=
      fold_left
        (fun diff i =>
           <[i := f64.sub (at_ truth i) (at_ approx i)]> diff)
        (seq 0 (length truth)) (replicate (length truth) f64.zero) in
    let norm_truth := vector_norm truth in
    let norm_diff := vector_norm diff in
    Returns (f64.div norm_diff (max norm_truth eps)).

(** [std::isnan] and [std::isinf] on a [double]. *)
Definition isnan (d : double) : bool :=
  match d with S754_nan => true | _ => false end.
Definition isinf (d : double) : bool :=
  match d with S754_infinity _ => true | _ => false end.

(** [static_cast<int>] of the [ptrdiff_t] that [std::count_if] returns:
    the value modulo [2^32], read as a signed 32-bit integer. *)
Definition static_cast_int (n : Z) : Z := (n + 2 ^ 31) mod 2 ^ 32 - 2 ^ 31.

Definition count_nan {T : Type} `{Numeric T} (data : list T) : Z :=
  static_cast_int
    (Z.of_nat
       (length (filter (fun x => isnan (num_to_double x) = true) data))).

Definition count_inf {T : Type} `{Numeric T} (data : list T) : Z :=
  static_cast_int
    (Z.of_nat
       (length (filter (fun x => isinf (num_to_double x) = true) data))).
End metrics.

(** ** Vocabulary for the statements about codes *)

(** The fields of a code under the default layout. *)
Definition exponent_of (code : Z) : Z := Z.land (Z.shiftr code 4) 7.
Definition mantissa_of (code : Z) : Z := Z.land code 15.

Definition is_uint8 (code : Z) : Prop := 0 <= code < 256.

(** The codes of NaN and of the two infinities. *)
Definition is_reserved (code : Z) : bool :=
  (code =? 0xFF) || (code =? 0x7F) || (code =? 0xFE).

(** The codes [p3109_quantize] produces: the reserved ones, the two zeros,
    and those with an exponent field from 1 to 6. *)
Definition canonical_code (code : Z) : bool :=
  is_reserved code || (code =? 0x00) || (code =? 0x80)
  || ((0 <=? code) && (code <? 256)
      && (1 <=? exponent_of code) && (exponent_of code <=? 6)).

(** The local [sign] of [p3109_quantize] for a sign bit [s]. *)
Definition sign_of (s : bool) : float :=
  if s then f32.of_int (-1) else f32.of_int 1.

(** The locals [exp_val] (before any carry) and [mantissa] (as rounded) of
    [p3109_quantize]. *)
Definition quantize_exp_val (value : float) : Z :=
  snd (f32.frexp (f32.fabs value)) + exponent_bias default_layout - 1.

Definition quantize_mantissa (value : float) : Z :=
  let mant := fst (f32.frexp (f32.fabs value)) in
  let mantissa_mask := Z.shiftl 1 (mantissa_bits default_layout) - 1 in
  let scaled := f32.sub (f32.mul mant (f32.of_int 2)) (f32.of_int 1) in
  f32.to_int (f32.round (f32.mul scaled (f32.of_int (mantissa_mask + 1)))).

Definition float_beq (a b : spec_float) : bool :=
  match a, b with
  | S754_zero s, S754_zero t => Bool.eqb s t
  | S754_infinity s, S754_infinity t => Bool.eqb s t
  | S754_nan, S754_nan => true
  | S754_finite s m e, S754_finite t n k =>
      Bool.eqb s t && Pos.eqb m n && Z.eqb e k
  | _, _ => false
  end.

(** The rank of a byte in sign-magnitude order: a byte with bit 7 clear
    ranks as itself, a byte [0x80 + r] as [- r], so that the two zero codes
    rank alike and the codes of negative values rank below them. *)
Definition code_rank (code : Z) : Z :=
  if 0x80 <=? code then 0x80 - code else code.

(** Names that differ at most in letter case: character by character they
    are the same, or one has a capital [A]-[Z] where the other has its
    small letter. *)
Definition is_capital (c : ascii) : bool :=
  (nat_of_ascii "A" <=? nat_of_ascii c)%nat
  && (nat_of_ascii c <=? nat_of_ascii "Z")%nat.

Definition small_of (c : ascii) : ascii :=
  ascii_of_nat (nat_of_ascii c + (nat_of_ascii "a" - nat_of_ascii "A")).

Definition same_letter (c d : ascii) : bool :=
  (c =? d)%char
  || (is_capital c && (d =? small_of c)%char)
  || (is_capital d && (c =? small_of d)%char).

Fixpoint same_name (n n' : string) : bool :=
  match n, n' with
  | EmptyString, EmptyString => true
  | String c r, String d r' => same_letter c d && same_name r r'
  | _, _ => false
  end.

(** All 256 bytes, and their values. *)
Definition codes : list Z := map (fun i => 0 + Z.of_nat i) (seq 0 256).
Definition dequantize_table : list float := map p3109_dequantize codes.
Definition code_values : list (Z * float) :=
  map (fun c => (c, p3109_dequantize c)) codes.

(** ** core/io.cpp: the CSV writer *)

Module csv.
(** The characters the writer looks for: the comma, the double quote,
    line feed and carriage return. *)
Definition dquote : ascii := ascii_of_nat 34.
Definition lf : ascii := ascii_of_nat 10.
Definition cr : ascii := ascii_of_nat 13.

Definition special (c : ascii) : bool :=
  (c =? ",")%char || (c =? dquote)%char || (c =? lf)%char || (c =? cr)%char.

(** [value.find_first_of(...) != npos]. *)
Fixpoint needs_quotes (value : string) : bool :=
  match value with
  | EmptyString => false
  | String c rest => special c || needs_quotes rest
  end.

(** The [for] loop over [value] and the closing quote pushed after it. *)
Fixpoint quote_chars (value : string) : string :=
  match value with
  | EmptyString => String dquote EmptyString
  | String c rest =>
      if (c =? dquote)%char then String dquote (String c (quote_chars rest))
      else String c (quote_chars rest)
  end.

Definition escape_csv_field (value : string) : string :=
  if negb (needs_quotes value) then value
  else String dquote (quote_chars value).

(** The loop that builds [line] in [write_header] and [write_row]. *)
Definition join_fields (fields : list string) : string :=
  fst (fold_left
         (fun '(line, i) field =>
            (((if (0 <? i)%nat then line ++ "," else line)
              ++ escape_csv_field field)%string, S i))
         fields (EmptyString, 0%nat)).

(** The writer: what has gone to [stream_] (with what the file held, when
    it was opened to append) and the flag [header_written_]. *)
Record CsvWriter : Type := {
  stream_ : string;
  header_written_ : bool
}.

(** The constructor, for a file that held [existing] (empty when there
    was none) and that opens or not as [opens] says; creating the parent
    directories is taken to succeed. *)
Definition open (path existing : string) (opens append : bool)
  : outcome CsvWriter :=
  if negb opens then Throws ("Failed to open CSV file: " ++ path)
  else
    Returns {| stream_ := if append then existing else EmptyString;
               header_written_ :=
                 append && negb (String.eqb existing EmptyString) |}.

Definition write_header (columns : list string) (w : CsvWriter) : CsvWriter :=
  if header_written_ w then w
  else
    {| stream_ :=
         (stream_ w ++ join_fields columns ++ String lf EmptyString)%string;
       header_written_ := true |}.

Definition write_row (values : list string) (w : CsvWriter)
  : outcome CsvWriter :=
  if negb (header_written_ w) then
    Throws "CSV header must be written before rows"
  else
    Returns
      {| stream_ :=
           (stream_ w ++ join_fields values ++ String lf EmptyString)%string;
         header_written_ := header_written_ w |}.

(** For the statements: the reading of a quoted field back, doubled
    quotes undone, up to the closing quote. *)
Fixpoint unquote_chars (quoted : string) : string :=
  match quoted with
  | EmptyString => EmptyString
  | String c rest =>
      if (c =? dquote)%char then
        match rest with
        | EmptyString => EmptyString
        | String c' rest' => String c' (unquote_chars rest')
        end
      else String c (unquote_chars rest)
  end.
End csv.

(** ** core/io.cpp: strings in the JSON reader and writer *)

Module json.
(** [std::isspace] in the "C" locale. *)
Definition isspace (c : ascii) : bool :=
  let n := nat_of_ascii c in
  ((9 <=? n)%nat && (n <=? 13)%nat) || (n =? 32)%nat.

(** The parser reads [text_] from [pos_] on and never goes back: the
    model carries the rest of the text, [text_.substr(pos_)]. *)
Fixpoint skip_ws (rest : string) : string :=
  match rest with
  | String c rest' => if isspace c then skip_ws rest' else rest
  | EmptyString => rest
  end.

(** The value of a hexadecimal digit of a [\u] escape. *)
Definition hex_digit (hex : ascii) : option nat :=
  let n := nat_of_ascii hex in
  if (48 <=? n)%nat && (n <=? 57)%nat then Some (n - 48)%nat
  else if (97 <=? n)%nat && (n <=? 102)%nat then Some (10 + n - 97)%nat
  else if (65 <=? n)%nat && (n <=? 70)%nat then Some (10 + n - 65)%nat
  else None.

(** [result.push_back(c)] ahead of what the rest of the loop returns. *)
Definition push (c : ascii) (o : outcome (string * string))
  : outcome (string * string) :=
  match o with
  | Returns (result, rest) => Returns (String c result, rest)
  | Throws what => Throws what
  end.

(** The [while] loop of [parse_string], after the opening quote: the
    string read and the rest of the text. *)
Fixpoint parse_string_chars (rest : string) : outcome (string * string) :=
  match rest with
  | EmptyString => Returns (EmptyString, EmptyString)
  | String c rest1 =>
      if (c =? csv.dquote)%char then Returns (EmptyString, rest1)
      else if (c =? "\")%char then
        match rest1 with
        | EmptyString => Throws "Invalid escape"
        | String esc rest2 =>
            if (esc =? csv.dquote)%char then
              push csv.dquote (parse_string_chars rest2)
            else if (esc =? "\")%char then push "\" (parse_string_chars rest2)
            else if (esc =? "/")%char then push "/" (parse_string_chars rest2)
            else if (esc =? "b")%char then
              push (ascii_of_nat 8) (parse_string_chars rest2)
            else if (esc =? "f")%char then
              push (ascii_of_nat 12) (parse_string_chars rest2)
            else if (esc =? "n")%char then
              push (ascii_of_nat 10) (parse_string_chars rest2)
            else if (esc =? "r")%char then
              push (ascii_of_nat 13) (parse_string_chars rest2)
            else if (esc =? "t")%char then
              push (ascii_of_nat 9) (parse_string_chars rest2)
            else if (esc =? "u")%char then
              match rest2 with
              | String h1 (String h2 (String h3 (String h4 rest3))) =>
                  match hex_digit h1, hex_digit h2, hex_digit h3,
                        hex_digit h4 with
                  | Some d1, Some d2, Some d3, Some d4 =>
                      let code := (((d1 * 16 + d2) * 16 + d3) * 16 + d4)%nat in
                      if (code <=? 127)%nat then
                        push (ascii_of_nat code) (parse_string_chars rest3)
                      else Throws "Unicode escapes beyond ASCII unsupported"
                  | _, _, _, _ => Throws "Invalid unicode hex escape"
                  end
              | _ => Throws "Invalid unicode escape"
              end
            else Throws "Invalid escape character"
        end
      else push c (parse_string_chars rest1)
  end.

Definition parse_string (rest : string) : outcome (string * string) :=
  match skip_ws rest with
  | EmptyString => Throws "Unexpected end of JSON input"
  | String c rest1 =>
      if (c =? csv.dquote)%char then parse_string_chars rest1
      else Throws "Expected string"
  end.

(** The visitor's case for a string in [serialize_simple]: the loop and
    the closing quote. *)
Fixpoint escape_chars (s : string) : string :=
  match s with
  | EmptyString => String csv.dquote EmptyString
  | String c rest =>
      if (c =? csv.dquote)%char || (c =? "\")%char then
        String "\" (String c (escape_chars rest))
      else String c (escape_chars rest)
  end.

Definition serialize_string (s : string) : string :=
  String csv.dquote (escape_chars s).
End json.


(** For the statements: a caller's sequence of calls on one writer. *)
Inductive csv_call : Type :=
| WriteHeader (columns : list string)
| WriteRow (values : list string).

(** The calls in order, up to the first that throws. *)
Fixpoint csv_run (calls : list csv_call) (w : csv.CsvWriter)
  : outcome csv.CsvWriter :=
  match calls with
  | [] => Returns w
  | WriteHeader columns :: calls' => csv_run calls' (csv.write_header columns w)
  | WriteRow values :: calls' =>
      match csv.write_row values w with
      | Returns w' => csv_run calls' w'
      | Throws what => Throws what
      end
  end.

(** The lines of the rows among the calls, in order. *)
Fixpoint csv_row_lines (calls : list csv_call) : string :=
  match calls with
  | [] => EmptyString
  | WriteHeader _ :: calls' => csv_row_lines calls'
  | WriteRow values :: calls' =>
      (csv.join_fields values ++ String csv.lf EmptyString
       ++ csv_row_lines calls')%string
  end.

(** A [float] or [double] that is a zero or a finite number. *)
Definition is_finite_value (x : spec_float) : bool :=
  match x with S754_zero _ | S754_finite _ _ _ => true | _ => false end.

(** ** Vocabulary for the statements about the kernels *)

(** The value [fir_filter] stores in [y[n]]: the [k] loop run on its own. *)
Definition fir_sample {T : Type} `{Numeric T} (opts : fir.FIROptions)
    (h x : list T) (n : nat) : T :=
  if fir.accumulate_in_fp32 opts then
    num_of_float
      (fst (fold_left (fir.tap_fp32 opts h x n) (seq 0 (length h))
                      (f32.zero, f32.zero)))
  else
    fst (fold_left (fir.tap opts h x n) (seq 0 (length h))
                   (num_zero, num_zero)).

(** The gradient [Q x + b] as [gradient_descent_quadratic] accumulates
    it, entry by entry. *)
Definition gradient_at {T : Type} `{Numeric T} (Q b : list T) (dim : nat)
    (x : list T) : list T :=
  map (fun i =>
         num_add
           (fold_left
              (fun acc j => num_add acc (num_mul (at_ Q (i * dim + j)) (at_ x j)))
              (seq 0 dim) num_zero)
           (at_ b i))
      (seq 0 dim).

(** * Proofs *)

(** ** Shifting mantissas *)

Section Shifts.

Lemma iter_pos_eq {A : Type} (f : A -> A) (p : positive) (x : A) :
  SpecFloat.iter_pos f p x = Pos.iter f x p.
Proof.
  revert x; induction p as [p IH | p IH |]; intros x; simpl.
  - rewrite !IH, !Pos.iter_swap. reflexivity.
  - rewrite !IH. reflexivity.
  - reflexivity.
Qed.

Lemma digits2_pos_iter_xO (m k : positive) :
  digits2_pos (Pos.iter xO m k) = (digits2_pos m + k)%positive.
Proof.
  induction k as [| k IH] using Pos.peano_ind.
  - simpl. rewrite Pos.add_1_r. reflexivity.
  - rewrite Pos.iter_succ. simpl. rewrite IH, Pos.add_succ_r. reflexivity.
Qed.

Lemma pos_iter_xO_Z (m k : positive) :
  Z.pos (Pos.iter xO m k) = Z.pos m * 2 ^ Z.pos k.
Proof.
  induction k as [| k IH] using Pos.peano_ind.
  - simpl. lia.
  - rewrite Pos.iter_succ.
    change (Z.pos (Pos.iter xO m k)~0) with (2 * Z.pos (Pos.iter xO m k)).
    rewrite IH, Pos2Z.inj_succ, Z.pow_succ_r by lia. lia.
Qed.

Lemma shr_1_iter_xO (m k : positive) :
  SpecFloat.iter_pos shr_1 k
    {| shr_m := Z.pos (Pos.iter xO m k); shr_r := false; shr_s := false |}
  = {| shr_m := Z.pos m; shr_r := false; shr_s := false |}.
Proof.
  rewrite iter_pos_eq.
  induction k as [| k IH] using Pos.peano_ind.
  - reflexivity.
  - rewrite Pos.iter_succ_r, Pos.iter_succ. simpl. exact IH.
Qed.

Lemma digits2_pos_bounds (m : positive) :
  2 ^ (Z.pos (digits2_pos m) - 1) <= Z.pos m < 2 ^ Z.pos (digits2_pos m).
Proof.
  induction m as [m IH | m IH |]; simpl digits2_pos;
    [change (Z.pos m~1) with (2 * Z.pos m + 1)
    |change (Z.pos m~0) with (2 * Z.pos m)
    |simpl; lia];
    rewrite Pos2Z.inj_succ;
    (replace (Z.succ (Z.pos (digits2_pos m)) - 1)
       with (Z.succ (Z.pos (digits2_pos m) - 1)) by lia);
    rewrite !Z.pow_succ_r by lia;
    set (lo := 2 ^ (Z.pos (digits2_pos m) - 1)) in *;
    set (hi := 2 ^ Z.pos (digits2_pos m)) in *;
    clearbody lo hi; lia.
Qed.

End Shifts.

(** ** Exact binary32 operations *)

Section Binary32.

Lemma fexp32 (x : Z) : -125 <= x -> fexp 24 128 x = x - 24.
Proof. unfold fexp, emin. lia. Qed.

(** A 24-digit mantissa in the exponent range is left alone by rounding. *)
Lemma round_aux_exact (s : bool) (M : positive) (e : Z) :
  digits2_pos M = 24%positive -> -149 <= e <= 104 ->
  binary_round_aux 24 128 s (Z.pos M) e loc_Exact = S754_finite s M e.
Proof.
  intros HM He. unfold binary_round_aux, shr_fexp.
  simpl Zdigits2. rewrite HM, fexp32 by lia.
  replace (24 + e - 24 - e) with 0 by lia.
  cbn [shr shr_record_of_loc shr_m loc_of_shr_record round_nearest_even
       Zdigits2].
  rewrite HM, fexp32 by lia.
  replace (24 + e - 24 - e) with 0 by lia.
  cbn [shr shr_record_of_loc shr_m].
  replace (e <=? 128 - 24) with true by (symmetry; apply Z.leb_le; lia).
  reflexivity.
Qed.

(** Trailing zero bits of a product are shifted out without rounding. *)
Lemma round_aux_shift (s : bool) (M k : positive) (e : Z) :
  digits2_pos M = 24%positive -> -149 <= e <= 104 ->
  binary_round_aux 24 128 s (Z.pos (Pos.iter xO M k)) (e - Z.pos k) loc_Exact
  = S754_finite s M e.
Proof.
  intros HM He. unfold binary_round_aux, shr_fexp.
  simpl Zdigits2. rewrite digits2_pos_iter_xO, HM, Pos2Z.inj_add.
  rewrite fexp32 by lia.
  replace (24 + Z.pos k + (e - Z.pos k) - 24 - (e - Z.pos k))
    with (Z.pos k) by lia.
  cbn [shr shr_record_of_loc]. rewrite shr_1_iter_xO.
  cbn [shr_m loc_of_shr_record round_nearest_even Zdigits2].
  replace (e - Z.pos k + Z.pos k) with e by lia.
  rewrite HM, fexp32 by lia.
  replace (24 + e - 24 - e) with 0 by lia.
  cbn [shr shr_record_of_loc shr_m].
  replace (e <=? 128 - 24) with true by (symmetry; apply Z.leb_le; lia).
  reflexivity.
Qed.

(** Normalisation of a short mantissa: [binary_round] shifts it left to
    24 digits. *)
Lemma binary_round_normalize (s : bool) (p : positive) (e : Z) :
  let d := Z.pos (digits2_pos p) in
  d < 24 -> -125 <= d + e <= 128 ->
  binary_round 24 128 s p e
  = S754_finite s (Pos.iter xO p (Z.to_pos (24 - d))) (e - (24 - d)).
Proof.
  intros d Hd He. unfold binary_round. fold d.
  rewrite fexp32 by lia. unfold shl_align.
  replace (d + e - 24 - e) with (Z.neg (Z.to_pos (24 - d))) by lia.
  replace (d + e - 24) with (e - (24 - d)) by lia.
  apply round_aux_exact; [| lia].
  rewrite digits2_pos_iter_xO. apply Pos2Z.inj. rewrite Pos2Z.inj_add.
  fold d. lia.
Qed.

Lemma mul_pow2_23 (M : positive) :
  (M * 8388608)%positive = Pos.iter xO M 23.
Proof. rewrite Pos.mul_comm. reflexivity. Qed.

(** Multiplying a normalised [float] by [2^(n - 23) = 8388608 * 2^n]
    only moves its exponent. *)
Lemma mul_pow2_exact (M : positive) (e n : Z) :
  digits2_pos M = 24%positive -> -149 <= e + n + 23 <= 104 ->
  f32.mul (S754_finite false M e) (S754_finite false 8388608 n)
  = S754_finite false M (e + n + 23).
Proof.
  intros HM He. unfold f32.mul, SFmul. rewrite mul_pow2_23. simpl xorb.
  rewrite <- (round_aux_shift false M 23 (e + n + 23) HM He).
  f_equal. lia.
Qed.

Lemma digits_below (p : positive) (n : Z) :
  Z.pos p < 2 ^ n -> Z.pos (digits2_pos p) <= n.
Proof.
  intros Hp. destruct (digits2_pos_bounds p) as [Hlo _].
  assert (Hn : 0 <= n).
  { destruct (Z.le_gt_cases 0 n) as [|Hneg]; [assumption|].
    rewrite Z.pow_neg_r in Hp by assumption. lia. }
  assert (Hlt : 2 ^ (Z.pos (digits2_pos p) - 1) < 2 ^ n) by lia.
  apply Z.pow_lt_mono_r_iff in Hlt; lia.
Qed.

Lemma to_int_of_small (q : Z) :
  0 <= q <= 16 ->
  f32.to_int
    match q with
    | 0 => S754_zero false
    | _ => binary_normalize 24 128 (cond_Zopp false q) 0 false
    end = q.
Proof.
  intros Hq.
  assert (Hcases : In q (map Z.of_nat (seq 0 17))).
  { apply in_map_iff. exists (Z.to_nat q). split; [lia|].
    apply in_seq. lia. }
  simpl in Hcases.
  repeat (destruct Hcases as [<- | Hcases]; [reflexivity|]).
  contradiction.
Qed.

(** The scaled and rounded mantissa of [p3109_quantize], as an integer
    expression of the 24-bit mantissa [M] that [frexp] returns. *)
Lemma rounded_mantissa_normal (M : positive) :
  digits2_pos M = 24%positive ->
  f32.to_int
    (f32.round
       (f32.mul
          (f32.sub (f32.mul (S754_finite false M (-24)) (f32.of_int 2))
                   (f32.of_int 1))
          (f32.of_int 16)))
  = (Z.pos M - 2 ^ 23 + 2 ^ 18) / 2 ^ 19.
Proof.
  intros HM.
  change (f32.of_int 2) with (S754_finite false 8388608 (-22)).
  change (f32.of_int 1) with (S754_finite false 8388608 (-23)).
  change (f32.of_int 16) with (S754_finite false 8388608 (-19)).
  rewrite mul_pow2_exact by (assumption || lia).
  replace (-24 + -22 + 23) with (-23) by lia.
  change (f32.sub (S754_finite false M (-23))
                  (S754_finite false 8388608 (-23)))
    with (binary_normalize 24 128 (Z.pos M - 2 ^ 23) (-23) false).
  pose proof (digits2_pos_bounds M) as HMb. rewrite HM in HMb.
  change (2 ^ (24 - 1)) with (2 ^ 23) in HMb.
  destruct (Z.pos M - 2 ^ 23) as [| p | p] eqn:Hp; [reflexivity | | lia].
  assert (Hplt : Z.pos p < 2 ^ 23).
  { change (2 ^ 24) with (2 ^ 23 + 2 ^ 23) in HMb. lia. }
  pose proof (digits_below p 23 Hplt) as Hd.
  unfold binary_normalize.
  rewrite binary_round_normalize by lia.
  set (d := Z.pos (digits2_pos p)) in *.
  assert (Hd1 : 1 <= d) by (unfold d; lia).
  assert (HX : digits2_pos (Pos.iter xO p (Z.to_pos (24 - d))) = 24%positive).
  { rewrite digits2_pos_iter_xO. apply Pos2Z.inj. rewrite Pos2Z.inj_add.
    fold d. lia. }
  rewrite mul_pow2_exact by (assumption || lia).
  unfold f32.round.
  replace (0 <=? -23 - (24 - d) + -19 + 23) with false
    by (symmetry; apply Z.leb_gt; lia).
  rewrite pos_iter_xO_Z, Z2Pos.id by lia.
  replace (- (-23 - (24 - d) + -19 + 23) - 1) with ((24 - d) + 18) by lia.
  replace (- (-23 - (24 - d) + -19 + 23)) with ((24 - d) + 19) by lia.
  rewrite !Z.pow_add_r by lia.
  replace (Z.pos p * 2 ^ (24 - d) + 2 ^ (24 - d) * 2 ^ 18)
    with (2 ^ (24 - d) * (Z.pos p + 2 ^ 18)) by lia.
  rewrite Z.div_mul_cancel_l by (apply Z.pow_nonzero; lia).
  apply to_int_of_small.
  change (2 ^ 18) with 262144 in *. change (2 ^ 19) with 524288 in *.
  change (2 ^ 23) with 8388608 in *.
  split.
  - apply Z.div_pos; lia.
  - apply Z.lt_succ_r, Z.div_lt_upper_bound; lia.
Qed.

End Binary32.

(** ** The codec on finite inputs *)

Section Quantize.

Lemma gtb_false (a b : Z) : a <= b -> (a >? b) = false.
Proof. intros H. rewrite Z.gtb_ltb. apply Z.ltb_ge. exact H. Qed.

Lemma gtb_true (a b : Z) : b < a -> (a >? b) = true.
Proof. intros H. rewrite Z.gtb_ltb. apply Z.ltb_lt. exact H. Qed.

Lemma bounded_cases (m : positive) (e : Z) :
  bounded 24 128 m e = true ->
  (digits2_pos m = 24%positive /\ -149 <= e <= 104)
  \/ (Z.pos (digits2_pos m) < 24 /\ e = -149).
Proof.
  unfold bounded, canonical_mantissa, fexp, emin.
  intros H. apply andb_true_iff in H as [Hc He].
  apply Z.eqb_eq in Hc. apply Z.leb_le in He.
  destruct (Z.eq_dec (Z.pos (digits2_pos m)) 24) as [Heq | Hne].
  - left. split; [apply Pos2Z.inj; exact Heq | lia].
  - right. lia.
Qed.

Lemma Z_range_forallb (P : Z -> bool) (lo : Z) (n : nat) :
  forallb P (map (fun i => lo + Z.of_nat i) (seq 0 n)) = true ->
  forall z, lo <= z < lo + Z.of_nat n -> P z = true.
Proof.
  intros H z Hz. rewrite forallb_forall in H. apply H.
  apply in_map_iff. exists (Z.to_nat (z - lo)). split; [lia|].
  apply in_seq. lia.
Qed.

Lemma pack_canonical (s : bool) (ev q : Z) :
  1 <= ev <= 6 -> 0 <= q <= 15 ->
  canonical_code (pack default_layout (sign_of s) ev q) = true
  /\ exponent_of (pack default_layout (sign_of s) ev q) = ev
  /\ mantissa_of (pack default_layout (sign_of s) ev q) = q
  /\ is_reserved (pack default_layout (sign_of s) ev q) = false.
Proof.
  intros Hev Hq.
  pose (P := fun s ev q =>
    let c := pack default_layout (sign_of s) ev q in
    canonical_code c && (exponent_of c =? ev) && (mantissa_of c =? q)
    && negb (is_reserved c)).
  assert (HP : P s ev q = true).
  { apply (Z_range_forallb (fun q => P s ev q) 0 16); [| lia].
    apply (Z_range_forallb
             (fun ev => forallb (fun q => P s ev q)
                          (map (fun i => 0 + Z.of_nat i) (seq 0 16)))
             1 6); [| lia].
    destruct s; vm_compute; reflexivity. }
  unfold P in HP. cbv zeta in HP.
  repeat (apply andb_true_iff in HP as [HP ?]).
  repeat split; try assumption.
  - apply Z.eqb_eq; assumption.
  - apply Z.eqb_eq; assumption.
  - apply negb_true_iff; assumption.
Qed.

(** What [p3109_quantize] does on a finite [float], with the mantissa
    arithmetic carried out on integers. *)
Lemma quantize_finite (s : bool) (m : positive) (e : Z) :
  bounded 24 128 m e = true ->
  p3109_quantize (S754_finite s m e)
  = let exp_val := e + Z.pos (digits2_pos m) + 2 in
    if exp_val >? 6 then saturate default_layout (sign_of s) 6
    else if exp_val <? 1 then (if s then 0x80 else 0x00)
    else
      let mantissa := (Z.pos m - 2 ^ 23 + 2 ^ 18) / 2 ^ 19 in
      if mantissa >? 15 then
        if exp_val + 1 >? 6 then saturate default_layout (sign_of s) 6
        else pack default_layout (sign_of s) (exp_val + 1) 0
      else pack default_layout (sign_of s) exp_val mantissa.
Proof.
  intros Hb. unfold p3109_quantize, p3109_quantize_with.
  cbn [f32.isnan f32.isinf f32.signbit f32.fabs SFabs].
  change (f32.eqb (S754_finite false m e) f32.zero) with false.
  cbv iota. fold (sign_of s).
  change (exponent_bias default_layout) with 3.
  change (Z.shiftl 1 (exponent_bits default_layout) - 2) with 6.
  change (Z.shiftl 1 (mantissa_bits default_layout) - 1) with 15.
  change (15 + 1) with 16.
  unfold f32.frexp, SFfrexp, f32.prec. change (Z.opp 24) with (-24).
  destruct (bounded_cases m e Hb) as [[Hd He] | [Hd He]].
  - rewrite Hd. change (24 <=? 24) with true. cbv iota beta zeta.
    replace (e + 24 + 3 - 1) with (e + 24 + 2) by lia.
    rewrite (rounded_mantissa_normal m Hd). reflexivity.
  - replace (24 <=? Z.pos (digits2_pos m)) with false
      by (symmetry; apply Z.leb_gt; lia).
    cbv iota beta zeta.
    replace (e + 24 - (24 - Z.pos (digits2_pos m)) + 3 - 1 >? 6) with false
      by (symmetry; apply gtb_false; lia).
    replace (e + 24 - (24 - Z.pos (digits2_pos m)) + 3 - 1 <? 1) with true
      by (symmetry; apply Z.ltb_lt; lia).
    replace (e + Z.pos (digits2_pos m) + 2 >? 6) with false
      by (symmetry; apply gtb_false; lia).
    replace (e + Z.pos (digits2_pos m) + 2 <? 1) with true
      by (symmetry; apply Z.ltb_lt; lia).
    reflexivity.
Qed.

(** The biased exponent that the code computes for a finite [float]. *)
Lemma quantize_exp_val_finite (s : bool) (m : positive) (e : Z) :
  bounded 24 128 m e = true ->
  quantize_exp_val (S754_finite s m e) = e + Z.pos (digits2_pos m) + 2.
Proof.
  intros Hb. unfold quantize_exp_val, f32.frexp, SFfrexp, f32.prec.
  cbn [f32.fabs SFabs]. change (exponent_bias default_layout) with 3.
  destruct (bounded_cases m e Hb) as [[Hd He] | [Hd He]].
  - rewrite Hd. change (24 <=? 24) with true. cbn [snd]. lia.
  - replace (24 <=? Z.pos (digits2_pos m)) with false
      by (symmetry; apply Z.leb_gt; lia).
    cbn [snd]. lia.
Qed.

End Quantize.

(** ** The range of the codec *)

Section Range.

Lemma canonical_uint8 (c : Z) : canonical_code c = true -> is_uint8 c.
Proof.
  unfold canonical_code, is_reserved, is_uint8. intros H.
  repeat (apply orb_true_iff in H as [H | H]);
    try (apply Z.eqb_eq in H; subst c; lia).
  repeat (apply andb_true_iff in H as [H ?]).
  apply Z.leb_le in H. apply Z.ltb_lt in H2. lia.
Qed.

Lemma uint8_forallb (P : Z -> bool) :
  forallb P codes = true -> forall c, is_uint8 c -> P c = true.
Proof.
  intros HP c Hc. apply (Z_range_forallb P 0 256 HP). unfold is_uint8 in Hc.
  lia.
Qed.

(** A canonical code survives the trip through [float]. *)
Lemma roundtrip_canonical (c : Z) :
  canonical_code c = true -> p3109_quantize (p3109_dequantize c) = c.
Proof.
  intros Hc. pose proof (canonical_uint8 c Hc) as Hu.
  pose (P := fun c => implb (canonical_code c)
                            (p3109_quantize (p3109_dequantize c) =? c)).
  assert (HP : P c = true).
  { apply uint8_forallb; [vm_compute; reflexivity | exact Hu]. }
  unfold P in HP. rewrite Hc in HP. apply Z.eqb_eq. exact HP.
Qed.

Lemma saturate_default (s : bool) :
  saturate default_layout (sign_of s) 6 = (if s then 0xEF else 0x6F).
Proof. destruct s; reflexivity. Qed.

Lemma mantissa_bounds (m : positive) :
  digits2_pos m = 24%positive ->
  0 <= (Z.pos m - 2 ^ 23 + 2 ^ 18) / 2 ^ 19 <= 16.
Proof.
  intros Hd. pose proof (digits2_pos_bounds m) as Hb. rewrite Hd in Hb.
  change (2 ^ (24 - 1)) with 8388608 in Hb.
  change (2 ^ 24) with 16777216 in Hb.
  change (2 ^ 18) with 262144. change (2 ^ 19) with 524288.
  change (2 ^ 23) with 8388608.
  split.
  - apply Z.div_pos; lia.
  - apply Z.lt_succ_r, Z.div_lt_upper_bound; lia.
Qed.

(** A finite [float] is quantized to a canonical code that is not
    reserved. *)
Lemma quantize_finite_code (s : bool) (m : positive) (e : Z) :
  bounded 24 128 m e = true ->
  canonical_code (p3109_quantize (S754_finite s m e)) = true
  /\ is_reserved (p3109_quantize (S754_finite s m e)) = false.
Proof.
  intros Hv. rewrite (quantize_finite s m e Hv). cbv zeta.
  destruct (bounded_cases m e Hv) as [[Hd He] | [Hd He]].
  - rewrite Hd. pose proof (mantissa_bounds m Hd) as Hq.
    set (q := (Z.pos m - 2 ^ 23 + 2 ^ 18) / 2 ^ 19) in *.
    destruct (Z.gtb_spec (e + 24 + 2) 6) as [Hhi | Hhi];
      [rewrite saturate_default; destruct s; split; reflexivity |].
    destruct (Z.ltb_spec (e + 24 + 2) 1) as [Hlo | Hlo];
      [destruct s; split; reflexivity |].
    destruct (Z.gtb_spec q 15) as [Hc | Hc].
    + destruct (Z.gtb_spec (e + 24 + 2 + 1) 6) as [Hhi' | Hhi'];
        [rewrite saturate_default; destruct s; split; reflexivity |].
      destruct (pack_canonical s (e + 24 + 2 + 1) 0) as (? & _ & _ & ?);
        [lia | lia | split; assumption].
    + destruct (pack_canonical s (e + 24 + 2) q) as (? & _ & _ & ?);
        [lia | lia | split; assumption].
  - rewrite gtb_false by lia.
    replace (e + Z.pos (digits2_pos m) + 2 <? 1) with true
      by (symmetry; apply Z.ltb_lt; lia).
    destruct s; split; reflexivity.
Qed.

(** Every [float] is quantized to a canonical code. *)
Lemma quantize_canonical (f : float) :
  f32.valid f = true -> canonical_code (p3109_quantize f) = true.
Proof.
  destruct f as [s | s | | s m e]; intros Hv;
    try (destruct s; reflexivity); try reflexivity.
  apply quantize_finite_code, Hv.
Qed.

(** Quantizing a second time changes nothing. *)
Lemma requantize (f : float) :
  f32.valid f = true ->
  p3109_quantize (p3109_dequantize (p3109_quantize f)) = p3109_quantize f.
Proof.
  intros Hv. apply roundtrip_canonical, quantize_canonical, Hv.
Qed.

(** The values of the 256 codes are closed under the four operations, in
    the sense that each result is a [float]. *)
Lemma table_ops_valid :
  forallb
    (fun o =>
       forallb
         (fun a => forallb (fun b => f32.valid (float_op o a b))
                           dequantize_table)
         dequantize_table)
    [OpAdd; OpSub; OpMul; OpDiv] = true.
Proof. vm_compute. reflexivity. Qed.

Lemma float_beq_eq (a b : spec_float) : float_beq a b = true -> a = b.
Proof.
  destruct a as [s | s | | s m e], b as [t | t | | t n k]; simpl;
    try discriminate; try reflexivity; intros H.
  - apply Bool.eqb_prop in H. congruence.
  - apply Bool.eqb_prop in H. congruence.
  - apply andb_true_iff in H as [H He]. apply andb_true_iff in H as [Hs Hm].
    apply Bool.eqb_prop in Hs. apply Pos.eqb_eq in Hm. apply Z.eqb_eq in He.
    congruence.
Qed.

Lemma In_codes (c : Z) : is_uint8 c -> In c codes.
Proof.
  intros Hc. unfold is_uint8 in Hc. apply in_map_iff.
  exists (Z.to_nat c). split; [lia | apply in_seq; lia].
Qed.

Lemma dequantize_op_valid (o : binop) (a b : Z) :
  is_uint8 a -> is_uint8 b ->
  f32.valid (float_op o (p3109_dequantize a) (p3109_dequantize b)) = true.
Proof.
  intros Ha Hb. pose proof table_ops_valid as Ht.
  rewrite forallb_forall in Ht.
  assert (Ho : In o [OpAdd; OpSub; OpMul; OpDiv])
    by (destruct o; simpl; tauto).
  specialize (Ht o Ho). rewrite forallb_forall in Ht.
  specialize (Ht (p3109_dequantize a) (in_map _ _ _ (In_codes a Ha))).
  rewrite forallb_forall in Ht.
  exact (Ht (p3109_dequantize b) (in_map _ _ _ (In_codes b Hb))).
Qed.

End Range.

(** ** The largest code the quantizer returns *)

Section Largest.

(** No code that [p3109_quantize] produces, the reserved ones apart, has
    an exponent field above 6 or a value above that of [0x6F]. *)
Lemma canonical_magnitude (c : Z) :
  canonical_code c = true -> is_reserved c = false ->
  exponent_of c <= 6
  /\ SFleb (f32.fabs (p3109_dequantize c)) (p3109_dequantize 0x6F) = true.
Proof.
  intros Hc Hr.
  pose (P := fun c =>
    implb (canonical_code c && negb (is_reserved c))
          ((exponent_of c <=? 6)
           && SFleb (f32.fabs (p3109_dequantize c)) (p3109_dequantize 0x6F))).
  assert (HP : P c = true)
    by (apply uint8_forallb;
        [vm_compute; reflexivity | apply canonical_uint8, Hc]).
  unfold P in HP. rewrite Hc, Hr in HP. cbn [negb andb implb] in HP.
  apply andb_true_iff in HP as [H1 H2]. apply Z.leb_le in H1.
  split; assumption.
Qed.

(** The code of a [float] that is neither NaN nor an infinity is not
    reserved. *)
Lemma quantize_not_reserved (g : float) :
  f32.valid g = true -> f32.isnan g = false -> f32.isinf g = false ->
  is_reserved (p3109_quantize g) = false.
Proof.
  intros Hv Hn Hi. destruct g as [s | s | | s m e]; try discriminate.
  - destruct s; reflexivity.
  - apply quantize_finite_code, Hv.
Qed.

End Largest.

(** ** The claims about the codec and the wrapper *)

(** C1, as the specification states it, fails at the code [0x01]: its
    exponent field is zero, so it dequantizes to [+0.0], which is quantized
    to [0x00]. *)
Lemma roundtrip_fails_at_0x01 :
  is_uint8 0x01 /\ is_reserved 0x01 = false
  /\ p3109_quantize (p3109_dequantize 0x01) <> 0x01.
Proof.
  split; [unfold is_uint8; lia|]. split; [reflexivity|].
  vm_compute. discriminate.
Qed.

(** C1 (amended): a non-reserved 8-bit code [c] satisfies
    [quantize(dequantize(c)) = c] exactly when it is one of the two zero
    codes [0x00], [0x80] or its exponent field is between 1 and 6. *)
Theorem roundtrip_nonreserved (c : Z) :
  is_uint8 c -> is_reserved c = false ->
  (p3109_quantize (p3109_dequantize c) = c
   <-> c = 0x00 \/ c = 0x80 \/ 1 <= exponent_of c <= 6).
Proof.
  intros Hu Hr.
  pose (P := fun c =>
    implb (negb (is_reserved c))
          (Bool.eqb (p3109_quantize (p3109_dequantize c) =? c)
                    ((c =? 0x00) || (c =? 0x80)
                     || ((1 <=? exponent_of c) && (exponent_of c <=? 6))))).
  assert (HP : P c = true)
    by (apply uint8_forallb; [vm_compute; reflexivity | exact Hu]).
  unfold P in HP. rewrite Hr in HP. simpl in HP.
  apply Bool.eqb_prop in HP.
  rewrite <- Z.eqb_eq, HP, !orb_true_iff, andb_true_iff, !Z.eqb_eq,
    !Z.leb_le.
  tauto.
Qed.

Lemma roundtrip_nonreserved_witness :
  p3109_quantize (p3109_dequantize 0x35) = 0x35
  <-> 0x35 = 0x00 \/ 0x35 = 0x80 \/ 1 <= exponent_of 0x35 <= 6.
Proof.
  apply roundtrip_nonreserved; [unfold is_uint8; lia | reflexivity].
Defined.


(** C2, as the specification states it, fails at the input [16.0]: its
    biased exponent 7 exceeds the maximum 6, and it is quantized to [0x6F],
    whose exponent field is 6 and whose value is 15.5; but [0x6F] is not
    the largest finite code: the codes with exponent field 7 other than the
    reserved three are read as finite values too, [0x70] as [16.0] itself
    and [0x7E] as [30.0]. *)
Lemma saturated_code_not_largest_finite :
  6 < quantize_exp_val (S754_finite false 8388608 (-19))
  /\ p3109_quantize (S754_finite false 8388608 (-19)) = 0x6F
  /\ exponent_of 0x6F = 6
  /\ is_uint8 0x7E /\ is_reserved 0x7E = false /\ exponent_of 0x7E = 7
  /\ p3109_dequantize 0x70 = S754_finite false 8388608 (-19)
  /\ p3109_dequantize 0x7E = S754_finite false 15728640 (-19)
  /\ SFltb (p3109_dequantize 0x6F) (p3109_dequantize 0x7E) = true.
Proof.
  split; [vm_compute; reflexivity |].
  split; [vm_compute; reflexivity |].
  split; [reflexivity |].
  split; [unfold is_uint8; lia |].
  split; [reflexivity |].
  split; [reflexivity |].
  split; [vm_compute; reflexivity |].
  split; vm_compute; reflexivity.
Qed.

(** C2 (amended): a finite [float] whose biased exponent [exp_val]
    exceeds the maximum 6 of the layout, directly or after the rounded
    mantissa carries out of its four bits, is quantized to [0x6F] or
    [0xEF] by its sign (exponent field 6, mantissa 15), and so to neither
    infinity code; this is the code of largest magnitude that
    [p3109_quantize] returns for any input that is not NaN or an infinity:
    none has an exponent field above 6 or a value of larger magnitude. *)
Theorem quantize_overflow_saturates (s : bool) (m : positive) (e : Z) :
  6 < quantize_exp_val (S754_finite s m e)
  \/ (quantize_exp_val (S754_finite s m e) = 6
      /\ 15 < quantize_mantissa (S754_finite s m e)) ->
  p3109_quantize (S754_finite s m e) = (if s then 0xEF else 0x6F)
  /\ exponent_of (p3109_quantize (S754_finite s m e)) = 6
  /\ mantissa_of (p3109_quantize (S754_finite s m e)) = 15
  /\ p3109_quantize (S754_finite s m e) <> 0x7F
  /\ p3109_quantize (S754_finite s m e) <> 0xFE
  /\ (forall g,
        f32.valid g = true -> f32.isnan g = false -> f32.isinf g = false ->
        exponent_of (p3109_quantize g) <= 6
        /\ SFleb (f32.fabs (p3109_dequantize (p3109_quantize g)))
                 (f32.fabs
                    (p3109_dequantize (p3109_quantize (S754_finite s m e))))
           = true).
Proof.
  intros H.
  assert (Hq : p3109_quantize (S754_finite s m e) = (if s then 0xEF else 0x6F)).
  { unfold quantize_exp_val, quantize_mantissa in H.
    unfold p3109_quantize, p3109_quantize_with.
    cbn [f32.isnan f32.isinf f32.signbit f32.fabs SFabs] in *.
    change (f32.eqb (S754_finite false m e) f32.zero) with false.
    cbv iota. fold (sign_of s).
    change (exponent_bias default_layout) with 3 in *.
    change (Z.shiftl 1 (exponent_bits default_layout) - 2) with 6.
    change (Z.shiftl 1 (mantissa_bits default_layout) - 1) with 15 in *.
    destruct (f32.frexp (S754_finite false m e)) as [mant exp].
    cbn [fst snd] in H. cbv zeta in H.
    destruct H as [Hhi | [Heq Hcarry]].
    - rewrite gtb_true by lia. apply saturate_default.
    - rewrite Heq. change (6 >? 6) with false. change (6 <? 1) with false.
      cbv iota. rewrite gtb_true by lia. cbv zeta.
      change (6 + 1 >? 6) with true. apply saturate_default. }
  rewrite Hq.
  split; [reflexivity |].
  split; [destruct s; reflexivity |].
  split; [destruct s; reflexivity |].
  split; [destruct s; discriminate |].
  split; [destruct s; discriminate |].
  intros g Hv Hn Hi.
  destruct (canonical_magnitude (p3109_quantize g)
              (quantize_canonical g Hv) (quantize_not_reserved g Hv Hn Hi))
    as [Hexp Hle].
  split; [exact Hexp |].
  replace (f32.fabs (p3109_dequantize (if s then 0xEF else 0x6F)))
    with (p3109_dequantize 0x6F) by (destruct s; vm_compute; reflexivity).
  exact Hle.
Qed.

Lemma quantize_overflow_saturates_witness :
  (p3109_quantize (S754_finite false 13107200 (-17)) = 0x6F
   /\ exponent_of (p3109_quantize (S754_finite false 13107200 (-17))) = 6
   /\ mantissa_of (p3109_quantize (S754_finite false 13107200 (-17))) = 15
   /\ p3109_quantize (S754_finite false 13107200 (-17)) <> 0x7F
   /\ p3109_quantize (S754_finite false 13107200 (-17)) <> 0xFE
   /\ (forall g,
         f32.valid g = true -> f32.isnan g = false -> f32.isinf g = false ->
         exponent_of (p3109_quantize g) <= 6
         /\ SFleb (f32.fabs (p3109_dequantize (p3109_quantize g)))
                  (f32.fabs
                     (p3109_dequantize
                        (p3109_quantize (S754_finite false 13107200 (-17)))))
            = true))
  /\ (p3109_quantize (S754_finite true 16515072 (-20)) = 0xEF
      /\ exponent_of (p3109_quantize (S754_finite true 16515072 (-20))) = 6
      /\ mantissa_of (p3109_quantize (S754_finite true 16515072 (-20))) = 15
      /\ p3109_quantize (S754_finite true 16515072 (-20)) <> 0x7F
      /\ p3109_quantize (S754_finite true 16515072 (-20)) <> 0xFE
      /\ (forall g,
            f32.valid g = true -> f32.isnan g = false -> f32.isinf g = false ->
            exponent_of (p3109_quantize g) <= 6
            /\ SFleb (f32.fabs (p3109_dequantize (p3109_quantize g)))
                     (f32.fabs
                        (p3109_dequantize
                           (p3109_quantize (S754_finite true 16515072 (-20)))))
               = true)).
Proof.
  split.
  - apply (quantize_overflow_saturates false 13107200 (-17)).
    left. vm_compute. reflexivity.
  - apply (quantize_overflow_saturates true 16515072 (-20)).
    right. split; vm_compute; reflexivity.
Defined.

(** C3: for operands holding any two bytes, each of [+ - * /] packs the
    same code whatever the state of the [accumulate_in_fp32_] flag. *)
Theorem binop_ignores_accumulate_flag
    (o : binop) (g1 g2 : Globals) (a b : P3109Number) :
  is_uint8 (P3109.raw a) -> is_uint8 (P3109.raw b) ->
  P3109.raw (apply_binop o g1 a b) = P3109.raw (apply_binop o g2 a b).
Proof.
  intros Ha Hb.
  assert (Hg : forall g,
    P3109.raw (apply_binop o g a b)
    = p3109_quantize
        (float_op o (p3109_dequantize (value_ a)) (p3109_dequantize (value_ b)))).
  { intros [flag].
    transitivity (P3109.raw (P3109.compound (float_op o)
                               {| accumulate_in_fp32_ := flag |} a b));
      [destruct o; reflexivity |].
    unfold P3109.compound, P3109.raw. cbn [value_ accumulate_in_fp32_].
    destruct flag; [reflexivity |].
    apply requantize, dequantize_op_valid; assumption. }
  rewrite (Hg g1), (Hg g2). reflexivity.
Qed.

Lemma binop_ignores_accumulate_flag_witness :
  P3109.raw (apply_binop OpMul (set_accumulate_fp32 true initial_globals)
               (P3109.of_raw 0x35) (P3109.of_raw 0x4B))
  = P3109.raw (apply_binop OpMul (set_accumulate_fp32 false initial_globals)
                 (P3109.of_raw 0x35) (P3109.of_raw 0x4B)).
Proof.
  apply binop_ignores_accumulate_flag; unfold is_uint8; simpl; lia.
Defined.

(** C4, as the specification states it, fails at the value holding the
    byte [0x01]: it is [+0.0], its negation is packed as [0x80], and the
    negation of that as [0x00]. *)
Lemma negating_twice_fails_at_0x01 :
  is_uint8 (P3109.raw (P3109.of_raw 0x01))
  /\ P3109.raw (P3109.neg (P3109.neg (P3109.of_raw 0x01))) <> 0x01.
Proof.
  split; [unfold is_uint8; simpl; lia | vm_compute; discriminate].
Qed.

(** C4 (amended): negating twice returns the original code bit for bit
    exactly for the values whose code [p3109_quantize] can produce (a
    reserved code, a zero code, or an exponent field from 1 to 6); on
    these a single negation negates the [float] value; and every value
    constructed from a [float] has such a code. *)
Theorem double_negation (x : P3109Number) :
  is_uint8 (P3109.raw x) ->
  (P3109.raw (P3109.neg (P3109.neg x)) = P3109.raw x
   <-> canonical_code (P3109.raw x) = true)
  /\ (canonical_code (P3109.raw x) = true ->
      P3109.to_float (P3109.neg x) = f32.neg (P3109.to_float x))
  /\ (forall v, f32.valid v = true ->
      canonical_code (P3109.raw (P3109.of_float v)) = true).
Proof.
  destruct x as [c]. unfold P3109.raw, P3109.to_float, P3109.neg.
  cbn [value_]. intros Hu.
  pose (P := fun c =>
    let n c := p3109_quantize (f32.neg (p3109_dequantize c)) in
    Bool.eqb (n (n c) =? c) (canonical_code c)
    && implb (canonical_code c)
             (float_beq (p3109_dequantize (n c))
                        (f32.neg (p3109_dequantize c)))).
  assert (HP : P c = true)
    by (apply uint8_forallb; [vm_compute; reflexivity | exact Hu]).
  unfold P in HP. cbv zeta in HP. apply andb_true_iff in HP as [H1 H2].
  apply Bool.eqb_prop in H1. split; [| split].
  - rewrite <- Z.eqb_eq, H1. tauto.
  - intros Hc. rewrite Hc in H2. apply float_beq_eq. exact H2.
  - intros v Hv. apply quantize_canonical. exact Hv.
Qed.

Lemma double_negation_witness :
  (P3109.raw (P3109.neg (P3109.neg (P3109.of_raw 0x35)))
   = P3109.raw (P3109.of_raw 0x35)
   <-> canonical_code (P3109.raw (P3109.of_raw 0x35)) = true)
  /\ (canonical_code (P3109.raw (P3109.of_raw 0x35)) = true ->
      P3109.to_float (P3109.neg (P3109.of_raw 0x35))
      = f32.neg (P3109.to_float (P3109.of_raw 0x35)))
  /\ (forall v, f32.valid v = true ->
      canonical_code (P3109.raw (P3109.of_float v)) = true).
Proof.
  apply double_negation. unfold is_uint8. simpl. lia.
Defined.

(** C5: NaN is quantized to the reserved code [0xFF], which dequantizes
    to NaN; the two infinities go to [0x7F] and [0xFE] and come back; the
    two zeros go to [0x00] and [0x80] and come back with their sign. *)
Theorem special_values :
  p3109_quantize S754_nan = 0xFF
  /\ p3109_dequantize 0xFF = S754_nan
  /\ p3109_quantize (S754_infinity false) = 0x7F
  /\ p3109_dequantize 0x7F = S754_infinity false
  /\ p3109_quantize (S754_infinity true) = 0xFE
  /\ p3109_dequantize 0xFE = S754_infinity true
  /\ p3109_quantize (S754_zero false) = 0x00
  /\ p3109_dequantize 0x00 = S754_zero false
  /\ p3109_quantize (S754_zero true) = 0x80
  /\ p3109_dequantize 0x80 = S754_zero true.
Proof. repeat split; vm_compute; reflexivity. Qed.

(** C10: the code of a [float] is [0x7F] (for +infinity only), [0xFE]
    (for -infinity only), [0xFF] (for NaN only), or a non-reserved code
    whose exponent field is at most 6.  So no [float] is quantized to a
    non-reserved code with exponent field 7, although each such code is
    dequantized to a finite non-zero value. *)
Theorem quantize_exponent_at_most_6 (f : float) :
  f32.valid f = true ->
  ((p3109_quantize f = 0x7F /\ f = S754_infinity false)
   \/ (p3109_quantize f = 0xFE /\ f = S754_infinity true)
   \/ (p3109_quantize f = 0xFF /\ f = S754_nan)
   \/ (is_reserved (p3109_quantize f) = false
       /\ exponent_of (p3109_quantize f) <= 6))
  /\ (forall c, is_uint8 c -> is_reserved c = false -> exponent_of c = 7 ->
      p3109_quantize f <> c
      /\ match p3109_dequantize c with
         | S754_finite _ _ _ => True
         | _ => False
         end).
Proof.
  intros Hv.
  assert (Hle : is_reserved (p3109_quantize f) = false ->
                exponent_of (p3109_quantize f) <= 6).
  { pose proof (quantize_canonical f Hv) as Hc. intros Hr.
    unfold canonical_code in Hc. rewrite Hr in Hc. simpl in Hc.
    repeat (apply orb_true_iff in Hc as [Hc | Hc]);
      try (apply Z.eqb_eq in Hc; rewrite Hc; vm_compute; discriminate).
    repeat (apply andb_true_iff in Hc as [Hc ?]).
    apply Z.leb_le. assumption. }
  split.
  - destruct f as [s | s | | s m e].
    + right; right; right. split; [destruct s; reflexivity | auto].
      apply Hle. destruct s; reflexivity.
    + destruct s; [right; left | left]; split; reflexivity.
    + right; right; left. split; reflexivity.
    + right; right; right.
      destruct (quantize_finite_code s m e Hv) as [_ Hr]. auto.
  - intros c Hu Hr H7. split.
    + intros Heq. rewrite Heq in Hle. specialize (Hle Hr). lia.
    + pose (P := fun c =>
        implb (negb (is_reserved c) && (exponent_of c =? 7))
              match p3109_dequantize c with
              | S754_finite _ _ _ => true
              | _ => false
              end).
      assert (HP : P c = true)
        by (apply uint8_forallb; [vm_compute; reflexivity | exact Hu]).
      unfold P in HP. rewrite Hr, H7 in HP. simpl in HP.
      destruct (p3109_dequantize c); (exact I || discriminate).
Qed.

Lemma quantize_exponent_at_most_6_witness :
  ((p3109_quantize (S754_finite false 13107200 (-17)) = 0x7F
    /\ S754_finite false 13107200 (-17) = S754_infinity false)
   \/ (p3109_quantize (S754_finite false 13107200 (-17)) = 0xFE
       /\ S754_finite false 13107200 (-17) = S754_infinity true)
   \/ (p3109_quantize (S754_finite false 13107200 (-17)) = 0xFF
       /\ S754_finite false 13107200 (-17) = S754_nan)
   \/ (is_reserved (p3109_quantize (S754_finite false 13107200 (-17))) = false
       /\ exponent_of (p3109_quantize (S754_finite false 13107200 (-17))) <= 6))
  /\ (forall c, is_uint8 c -> is_reserved c = false -> exponent_of c = 7 ->
      p3109_quantize (S754_finite false 13107200 (-17)) <> c
      /\ match p3109_dequantize c with
         | S754_finite _ _ _ => True
         | _ => False
         end).
Proof.
  apply (quantize_exponent_at_most_6 (S754_finite false 13107200 (-17))).
  vm_compute. reflexivity.
Defined.

(** ** The iterative kernels *)

Section Newton.

Context {T : Type} `{Numeric T}.
Variables (f df : T -> T) (opts : newton.NewtonOptions).

Local Abbreviation criterion := (newton.criterion f opts).
Local Abbreviation derivative_zero := (newton.derivative_zero df).
Local Abbreviation step := (newton.step f df).

(** One trip of the loop, in the vocabulary of the statements. *)
Lemma newton_loop_S (fuel iter : nat) (x : T) :
  newton.loop f df opts (S fuel) iter x
  = if criterion x then
      {| newton.root := x; newton.iterations := iter;
         newton.converged := true |}
    else if derivative_zero x then
      {| newton.root := x; newton.iterations := iter;
         newton.converged := false |}
    else newton.loop f df opts fuel (S iter) (step x).
Proof. reflexivity. Qed.

(** The loop entered at iteration [iter] on [x], when the first [k]
    iterates from [x] neither converge nor have a zero derivative and [k]
    is within the fuel: what happens at the iterate number [k]. *)
Lemma newton_loop_runs (fuel iter k : nat) (x : T) :
  (k < fuel)%nat ->
  (forall j, (j < k)%nat ->
     criterion (Nat.iter j step x) = false
     /\ derivative_zero (Nat.iter j step x) = false) ->
  newton.loop f df opts fuel iter x
  = if criterion (Nat.iter k step x) then
      {| newton.root := Nat.iter k step x;
         newton.iterations := (iter + k)%nat;
         newton.converged := true |}
    else if derivative_zero (Nat.iter k step x) then
      {| newton.root := Nat.iter k step x;
         newton.iterations := (iter + k)%nat;
         newton.converged := false |}
    else newton.loop f df opts (fuel - S k) (iter + S k) (Nat.iter (S k) step x).
Proof.
  revert fuel iter x.
  induction k as [| k IH]; intros fuel iter x Hk Hrun;
    (destruct fuel as [| fuel]; [lia |]); rewrite newton_loop_S.
  - replace (iter + 0)%nat with iter by lia.
    replace (S fuel - 1)%nat with fuel by lia.
    replace (iter + 1)%nat with (S iter) by lia.
    reflexivity.
  - destruct (Hrun 0%nat ltac:(lia)) as [Hc Hd].
    change (Nat.iter 0 step x) with x in Hc, Hd. rewrite Hc, Hd.
    rewrite (IH fuel (S iter) (step x)) by
      (try lia; intros j Hj; rewrite <- Nat.iter_succ_r; apply Hrun; lia).
    rewrite <- !Nat.iter_succ_r.
    replace (S iter + k)%nat with (iter + S k)%nat by lia.
    replace (S iter + S k)%nat with (iter + S (S k))%nat by lia.
    reflexivity.
Qed.

(** The loop run to the end of its fuel. *)
Lemma newton_loop_exhausted (fuel iter : nat) (x : T) :
  (forall j, (j < fuel)%nat ->
     criterion (Nat.iter j step x) = false
     /\ derivative_zero (Nat.iter j step x) = false) ->
  newton.loop f df opts fuel iter x
  = {| newton.root := Nat.iter fuel step x;
       newton.iterations := newton.max_iters opts;
       newton.converged := false |}.
Proof.
  revert iter x. induction fuel as [| fuel IH]; intros iter x Hrun.
  - reflexivity.
  - destruct (Hrun 0%nat ltac:(lia)) as [Hc Hd].
    change (Nat.iter 0 step x) with x in Hc, Hd.
    rewrite newton_loop_S, Hc, Hd, Nat.iter_succ_r.
    apply IH. intros j Hj. rewrite <- Nat.iter_succ_r. apply Hrun. lia.
Qed.

End Newton.

Section GradientDescent.

Context {T : Type} `{Numeric T}.
Variables (Q b : list T) (dim : nat)
          (opts : gradient_descent.GradientDescentOptions).

Local Abbreviation stops := (gradient_descent.stops Q b dim opts).
Local Abbreviation next := (gradient_descent.next Q b dim opts).

Lemma gd_loop_S (fuel iter : nat) (st : list T * list T) :
  gradient_descent.loop Q b dim opts (S fuel) iter (fst st) (snd st)
  = if stops st then
      {| gradient_descent.x := fst st;
         gradient_descent.iterations := iter;
         gradient_descent.converged := true |}
    else
      gradient_descent.loop Q b dim opts fuel (S iter)
        (fst (next st)) (snd (next st)).
Proof. reflexivity. Qed.

Lemma gd_loop_runs (fuel iter k : nat) (st : list T * list T) :
  (k < fuel)%nat ->
  (forall j, (j < k)%nat -> stops (Nat.iter j next st) = false) ->
  gradient_descent.loop Q b dim opts fuel iter (fst st) (snd st)
  = if stops (Nat.iter k next st) then
      {| gradient_descent.x := fst (Nat.iter k next st);
         gradient_descent.iterations := (iter + k)%nat;
         gradient_descent.converged := true |}
    else
      gradient_descent.loop Q b dim opts (fuel - S k) (iter + S k)
        (fst (Nat.iter (S k) next st)) (snd (Nat.iter (S k) next st)).
Proof.
  revert fuel iter st.
  induction k as [| k IH]; intros fuel iter st Hk Hrun;
    (destruct fuel as [| fuel]; [lia |]); rewrite gd_loop_S.
  - replace (iter + 0)%nat with iter by lia.
    replace (S fuel - 1)%nat with fuel by lia.
    replace (iter + 1)%nat with (S iter) by lia.
    reflexivity.
  - pose proof (Hrun 0%nat ltac:(lia)) as Hc.
    change (Nat.iter 0 next st) with st in Hc. rewrite Hc.
    rewrite (IH fuel (S iter) (next st)) by
      (try lia; intros j Hj; rewrite <- Nat.iter_succ_r; apply Hrun; lia).
    rewrite <- !Nat.iter_succ_r.
    replace (S iter + k)%nat with (iter + S k)%nat by lia.
    replace (S iter + S k)%nat with (iter + S (S k))%nat by lia.
    reflexivity.
Qed.

End GradientDescent.

(** C6, as the specification states it, fails in two ways.  With an
    empty budget, [max_iters = 0], the loop body, and so the criterion, is
    never evaluated: both kernels report [converged = false] although the
    criterion holds at the initial point.  And [newton_raphson] stops at a
    zero derivative before it gets to an iterate at which the criterion
    would hold: for [f(x) = isinf(x) ? 0 : 1], [f'(x) = 0] and the initial
    point 1, the criterion first holds at the iterate number 1, which is
    [-inf], yet the kernel returns at iteration 0 with
    [converged = false]. *)
Lemma stopping_claim_fails :
  let one := f64.lit 1 0 in
  let half := f64.lit 1 (-1) in
  let nopts0 := {| newton.max_iters := 0; newton.tol := one |} in
  let gopts0 := {| gradient_descent.step_size := one;
                   gradient_descent.max_iters := 0;
                   gradient_descent.tol := one |} in
  let id := fun x : double => x in
  let f := fun x : double =>
    match x with S754_infinity _ => f64.zero | _ => one end in
  let df := fun _ : double => f64.zero in
  let nopts := {| newton.max_iters := 5; newton.tol := half |} in
  (newton.criterion id nopts0 f64.zero = true
   /\ newton.converged (newton.newton_raphson id id nopts0 f64.zero) = false)
  /\ (gradient_descent.stops [one] [f64.zero] 1 gopts0
        (gradient_descent.state_at [one] [f64.zero] 1 gopts0 [f64.zero] 0)
      = true
      /\ gradient_descent.converged
           (gradient_descent.gradient_descent_quadratic
              [one] [f64.zero] 1 gopts0 [f64.zero]) = false)
  /\ (newton.criterion f nopts (newton.iterate f df one 0) = false
      /\ newton.criterion f nopts (newton.iterate f df one 1) = true
      /\ newton.newton_raphson f df nopts one
         = {| newton.root := one;
              newton.iterations := 0;
              newton.converged := false |}).
Proof. repeat split; vm_compute; reflexivity. Qed.

(** C6 (amended): in both iterative kernels the stopping criterion is
    evaluated before the update is applied.  If it first holds at the
    iterate number [k], with [k] below [max_iters] (and, for
    Newton-Raphson, no earlier iterate has a zero derivative), the kernel
    returns that iterate with [iterations = k] and [converged = true]; in
    particular, with [max_iters] at least 1 and the criterion holding at
    the initial point, it returns the initial point unchanged with
    [iterations = 0]. *)
Theorem converged_at_first_hit {T : Type} `{Numeric T} (k : nat)
    (f df : T -> T) (nopts : newton.NewtonOptions) (initial : T)
    (Q b : list T) (dim : nat)
    (gopts : gradient_descent.GradientDescentOptions) (x0 : list T) :
  ((k < newton.max_iters nopts)%nat ->
   (forall j, (j < k)%nat ->
      newton.criterion f nopts (newton.iterate f df initial j) = false
      /\ newton.derivative_zero df (newton.iterate f df initial j) = false) ->
   newton.criterion f nopts (newton.iterate f df initial k) = true ->
   newton.newton_raphson f df nopts initial
   = {| newton.root := newton.iterate f df initial k;
        newton.iterations := k;
        newton.converged := true |})
  /\ ((k < gradient_descent.max_iters gopts)%nat ->
      (forall j, (j < k)%nat ->
         gradient_descent.stops Q b dim gopts
           (gradient_descent.state_at Q b dim gopts x0 j) = false) ->
      gradient_descent.stops Q b dim gopts
        (gradient_descent.state_at Q b dim gopts x0 k) = true ->
      gradient_descent.gradient_descent_quadratic Q b dim gopts x0
      = {| gradient_descent.x :=
             fst (gradient_descent.state_at Q b dim gopts x0 k);
           gradient_descent.iterations := k;
           gradient_descent.converged := true |}).
Proof.
  split.
  - intros Hk Hrun Hc. unfold newton.newton_raphson.
    rewrite (newton_loop_runs f df nopts _ 0%nat k initial Hk Hrun).
    unfold newton.iterate in Hc. rewrite Hc. reflexivity.
  - intros Hk Hrun Hc. unfold gradient_descent.gradient_descent_quadratic.
    pose proof (gd_loop_runs Q b dim gopts _ 0%nat k
                  (x0, replicate dim num_zero) Hk Hrun) as Hloop.
    cbn [fst snd] in Hloop. rewrite Hloop.
    unfold gradient_descent.state_at in Hc. rewrite Hc. reflexivity.
Qed.

(** C7: [newton_raphson] has no failing path.  When the iterate number
    [k], reached within the budget, does not meet the criterion and has
    a derivative equal to zero, the kernel returns that iterate with
    [iterations = k] and [converged = false]; when the budget runs out
    with neither test ever met, it returns the last iterate with
    [iterations = max_iters] and [converged = false]. *)
Theorem newton_zero_derivative_and_budget {T : Type} `{Numeric T}
    (f df : T -> T) (opts : newton.NewtonOptions) (initial : T) :
  (forall k,
     (k < newton.max_iters opts)%nat ->
     (forall j, (j < k)%nat ->
        newton.criterion f opts (newton.iterate f df initial j) = false
        /\ newton.derivative_zero df (newton.iterate f df initial j) = false) ->
     newton.criterion f opts (newton.iterate f df initial k) = false ->
     newton.derivative_zero df (newton.iterate f df initial k) = true ->
     newton.newton_raphson f df opts initial
     = {| newton.root := newton.iterate f df initial k;
          newton.iterations := k;
          newton.converged := false |})
  /\ ((forall j, (j < newton.max_iters opts)%nat ->
         newton.criterion f opts (newton.iterate f df initial j) = false
         /\ newton.derivative_zero df (newton.iterate f df initial j) = false) ->
      newton.newton_raphson f df opts initial
      = {| newton.root := newton.iterate f df initial (newton.max_iters opts);
           newton.iterations := newton.max_iters opts;
           newton.converged := false |}).
Proof.
  split.
  - intros k Hk Hrun Hc Hd. unfold newton.newton_raphson.
    rewrite (newton_loop_runs f df opts _ 0%nat k initial Hk Hrun).
    unfold newton.iterate in Hc, Hd. rewrite Hc, Hd. reflexivity.
  - intros Hrun. apply newton_loop_exhausted. exact Hrun.
Qed.

Lemma converged_at_first_hit_witness :
  let one := f64.lit 1 0 in
  let half := f64.lit 1 (-1) in
  newton.newton_raphson (fun x => f64.sub x one) (fun _ => one)
    {| newton.max_iters := 5; newton.tol := half |} f64.zero
  = {| newton.root := one; newton.iterations := 1; newton.converged := true |}
  /\ gradient_descent.gradient_descent_quadratic
       [one] [f64.lit (-1) 0] 1
       {| gradient_descent.step_size := one;
          gradient_descent.max_iters := 5;
          gradient_descent.tol := half |}
       [f64.zero]
     = {| gradient_descent.x := [one];
          gradient_descent.iterations := 1;
          gradient_descent.converged := true |}.
Proof.
  intros one half.
  pose proof (converged_at_first_hit (T := double) 1
                (fun x => f64.sub x one) (fun _ => one)
                {| newton.max_iters := 5; newton.tol := half |} f64.zero
                [one] [f64.lit (-1) 0] 1
                {| gradient_descent.step_size := one;
                   gradient_descent.max_iters := 5;
                   gradient_descent.tol := half |}
                [f64.zero]) as [HN HG].
  split.
  - apply HN.
    + simpl. lia.
    + intros j Hj. assert (j = 0)%nat as -> by lia.
      split; vm_compute; reflexivity.
    + vm_compute. reflexivity.
  - apply HG.
    + simpl. lia.
    + intros j Hj. assert (j = 0)%nat as -> by lia. vm_compute. reflexivity.
    + vm_compute. reflexivity.
Defined.

Lemma newton_zero_derivative_and_budget_witness :
  let one := f64.lit 1 0 in
  let half := f64.lit 1 (-1) in
  newton.newton_raphson (fun _ => one) (fun _ => f64.zero)
    {| newton.max_iters := 5; newton.tol := half |} one
  = {| newton.root := one; newton.iterations := 0; newton.converged := false |}
  /\ newton.newton_raphson (fun _ => one) (fun _ => one)
       {| newton.max_iters := 2; newton.tol := half |} one
     = {| newton.root := f64.lit (-1) 0;
          newton.iterations := 2;
          newton.converged := false |}.
Proof.
  intros one half. split.
  - apply (proj1 (newton_zero_derivative_and_budget (T := double)
                    (fun _ => one) (fun _ => f64.zero)
                    {| newton.max_iters := 5; newton.tol := half |} one) 0%nat).
    + simpl. lia.
    + intros j Hj. lia.
    + vm_compute. reflexivity.
    + vm_compute. reflexivity.
  - rewrite (proj2 (newton_zero_derivative_and_budget (T := double)
                      (fun _ => one) (fun _ => one)
                      {| newton.max_iters := 2; newton.tol := half |} one)).
    + vm_compute. reflexivity.
    + intros j Hj. simpl in Hj.
      assert (j = 0 \/ j = 1)%nat as [-> | ->] by lia;
        split; vm_compute; reflexivity.
Defined.

(** ** The FIR kernel at [double] *)

(** C9: at [double] and with the default options, [fir_filter] maps
    [h = [0.5, 0.5]], [x = [1, 2, 3, 4]] to [[0.5, 1.5, 2.5, 3.5]], and
    the single tap [h = [1.0]] maps [x = [1, 2, 3]] to itself. *)
Theorem fir_reference_cases :
  fir.fir_filter (T := double)
    [f64.lit 1 (-1); f64.lit 1 (-1)]
    [f64.lit 1 0; f64.lit 2 0; f64.lit 3 0; f64.lit 4 0]
    fir.default_options
  = [f64.lit 1 (-1); f64.lit 3 (-1); f64.lit 5 (-1); f64.lit 7 (-1)]
  /\ fir.fir_filter (T := double)
       [f64.lit 1 0] [f64.lit 1 0; f64.lit 2 0; f64.lit 3 0]
       fir.default_options
     = [f64.lit 1 0; f64.lit 2 0; f64.lit 3 0].
Proof. split; vm_compute; reflexivity. Qed.

(** ** The registry *)

Section Registry.

Lemma precision_table_nodup : NoDup (precision_table.*1).
Proof. apply NoDup_ListNoDup. repeat constructor; simpl; intuition discriminate. Qed.

Lemma precision_map_lookup (k : string) (p : Precision) :
  precision_map !! k = Some p <-> In (k, p) precision_table.
Proof.
  unfold precision_map.
  rewrite <- (elem_of_list_to_map (M := gmap string)) by apply precision_table_nodup.
  apply list_elem_of_In.
Qed.

End Registry.

Section Names.

(** The code of the character [tolower] returns. *)
Lemma tolower_code (c : ascii) :
  nat_of_ascii (tolower c)
  = (if (65 <=? nat_of_ascii c)%nat && (nat_of_ascii c <=? 90)%nat
     then nat_of_ascii c + 32 else nat_of_ascii c)%nat.
Proof.
  unfold tolower. cbv zeta.
  destruct ((65 <=? nat_of_ascii c)%nat && (nat_of_ascii c <=? 90)%nat) eqn:Hc;
    [| reflexivity].
  apply andb_true_iff in Hc as [_ Hc]. apply Nat.leb_le in Hc.
  apply nat_ascii_embedding. lia.
Qed.

Lemma ascii_code_inj (c d : ascii) : nat_of_ascii c = nat_of_ascii d -> c = d.
Proof.
  intros H. rewrite <- (ascii_nat_embedding c), <- (ascii_nat_embedding d), H.
  reflexivity.
Qed.

(** [tolower] identifies exactly the characters that differ at most in
    letter case. *)
Lemma same_letter_tolower (c d : ascii) :
  same_letter c d = true <-> tolower c = tolower d.
Proof.
  assert (Hs : forall x, is_capital x = true ->
            nat_of_ascii (small_of x) = (nat_of_ascii x + 32)%nat).
  { intros x Hx. unfold is_capital in Hx. unfold small_of.
    change (nat_of_ascii "A") with 65%nat in *.
    change (nat_of_ascii "Z") with 90%nat in *.
    change (nat_of_ascii "a" - 65)%nat with 32%nat.
    apply andb_true_iff in Hx as [_ Hx]. apply Nat.leb_le in Hx.
    apply nat_ascii_embedding. lia. }
  assert (Hcap : forall x, is_capital x
            = (65 <=? nat_of_ascii x)%nat && (nat_of_ascii x <=? 90)%nat)
    by reflexivity.
  split.
  - intros H. apply ascii_code_inj. rewrite !tolower_code, <- !Hcap.
    unfold same_letter in H.
    apply orb_true_iff in H as [H | H];
      [apply orb_true_iff in H as [H | H] |].
    + apply Ascii.eqb_eq in H. subst d. reflexivity.
    + apply andb_true_iff in H as [Hc H]. apply Ascii.eqb_eq in H. subst d.
      rewrite Hc. specialize (Hs c Hc). rewrite Hs.
      rewrite Hcap in Hc |- *. rewrite Hs.
      apply andb_true_iff in Hc as [Hc1 Hc2].
      apply Nat.leb_le in Hc1, Hc2.
      destruct (Nat.leb_spec (nat_of_ascii c + 32) 90); [lia |].
      rewrite andb_false_r. reflexivity.
    + apply andb_true_iff in H as [Hd H]. apply Ascii.eqb_eq in H. subst c.
      rewrite Hd. specialize (Hs d Hd). rewrite Hs.
      rewrite Hcap in Hd |- *. rewrite Hs.
      apply andb_true_iff in Hd as [Hd1 Hd2].
      apply Nat.leb_le in Hd1, Hd2.
      destruct (Nat.leb_spec (nat_of_ascii d + 32) 90); [lia |].
      rewrite andb_false_r. reflexivity.
  - intros H. apply (f_equal nat_of_ascii) in H.
    rewrite !tolower_code, <- !Hcap in H. unfold same_letter.
    destruct (is_capital c) eqn:Hc, (is_capital d) eqn:Hd; cbn [andb].
    + assert (c = d) by (apply ascii_code_inj; lia). subst d.
      rewrite Ascii.eqb_refl. reflexivity.
    + assert (d = small_of c)
        by (apply ascii_code_inj; rewrite (Hs c Hc); lia).
      subst d. rewrite Ascii.eqb_refl, orb_true_r. reflexivity.
    + assert (c = small_of d)
        by (apply ascii_code_inj; rewrite (Hs d Hd); lia).
      subst c. rewrite Ascii.eqb_refl, !orb_true_r. reflexivity.
    + assert (c = d) by (apply ascii_code_inj; lia). subst d.
      rewrite Ascii.eqb_refl. reflexivity.
Qed.

(** [to_lower] identifies exactly the names that differ at most in letter
    case. *)
Lemma same_name_to_lower (n n' : string) :
  same_name n n' = true <-> to_lower n = to_lower n'.
Proof.
  revert n'. induction n as [| c r IH]; intros [| d r']; cbn [same_name to_lower].
  - tauto.
  - split; discriminate.
  - split; discriminate.
  - rewrite andb_true_iff, same_letter_tolower, IH.
    split; [intros [-> ->]; reflexivity | intros H; injection H; auto].
Qed.

(** The names of the table are in small letters. *)
Lemma precision_table_lower (key : string) (p : Precision) :
  In (key, p) precision_table -> to_lower key = key.
Proof.
  intros Hin. cbn [precision_table In] in Hin.
  repeat (destruct Hin as [Heq | Hin]; [injection Heq as <- _; reflexivity |]).
  contradiction.
Qed.

End Names.

(** C8: [precision_from_string] does not look at letter case: the key it
    searches the table with is the same for two names exactly when they
    differ at most in letter case; a name that is, up to letter case, one
    of the ten names of the table gets that entry's precision, synonyms
    included, so that ["fp32"] and ["float32"] in any letter case give
    [FP32]; a precision is returned for such names only; and for a name
    that is none of the ten in any letter case the call throws
    [std::runtime_error], with the name as given in the message. *)
Theorem precision_from_string_lookup (name : string) :
  (forall name', same_name name name' = true <-> to_lower name = to_lower name')
  /\ (forall key p,
        In (key, p) precision_table -> same_name name key = true ->
        precision_from_string name = Returns p)
  /\ (same_name name "fp32" = true \/ same_name name "float32" = true ->
      precision_from_string name = Returns FP32)
  /\ (forall p,
        precision_from_string name = Returns p ->
        exists key, In (key, p) precision_table /\ same_name name key = true)
  /\ ((forall key,
         In key (map fst precision_table) -> same_name name key = false) ->
      precision_from_string name
      = Throws ("Unknown precision string: " ++ name)).
Proof.
  assert (Hlookup : forall p,
            precision_from_string name = Returns p
            <-> In (to_lower name, p) precision_table).
  { intros p. rewrite <- precision_map_lookup. unfold precision_from_string.
    destruct (precision_map !! to_lower name); split; congruence. }
  assert (Hkey : forall key p,
            In (key, p) precision_table -> same_name name key = true ->
            precision_from_string name = Returns p).
  { intros key p Hin Hsame. apply Hlookup.
    apply same_name_to_lower in Hsame.
    rewrite Hsame, (precision_table_lower key p Hin). exact Hin. }
  split; [intros name'; apply same_name_to_lower |].
  split; [exact Hkey |].
  split.
  { intros [H | H]; [apply (Hkey "fp32"%string) | apply (Hkey "float32"%string)];
      try exact H; cbn [precision_table In]; tauto. }
  split.
  { intros p Hp. apply Hlookup in Hp. exists (to_lower name).
    split; [exact Hp |]. apply same_name_to_lower.
    symmetry. apply (precision_table_lower _ p Hp). }
  intros Hnone. unfold precision_from_string.
  destruct (precision_map !! to_lower name) as [p |] eqn:Hl; [| reflexivity].
  apply precision_map_lookup in Hl.
  assert (Hsame : same_name name (to_lower name) = true).
  { apply same_name_to_lower. symmetry.
    apply (precision_table_lower _ p Hl). }
  rewrite (Hnone (to_lower name)) in Hsame; [discriminate |].
  apply in_map_iff. exists (to_lower name, p). split; [reflexivity | exact Hl].
Qed.

Lemma precision_from_string_lookup_witness :
  precision_from_string "FLOAT32" = Returns FP32
  /\ precision_from_string "Fp32" = Returns FP32
  /\ precision_from_string "BFloat16" = Returns BF16
  /\ precision_from_string "fp128"
     = Throws "Unknown precision string: fp128".
Proof.
  split; [| split; [| split]].
  - apply (proj1 (proj2 (proj2 (precision_from_string_lookup "FLOAT32")))).
    right. reflexivity.
  - apply (proj1 (proj2 (proj2 (precision_from_string_lookup "Fp32")))).
    left. reflexivity.
  - apply (proj1 (proj2 (precision_from_string_lookup "BFloat16"))
             "bfloat16"%string BF16).
    + cbn [precision_table In]. tauto.
    + reflexivity.
  - apply (proj2 (proj2 (proj2 (proj2 (precision_from_string_lookup "fp128"))))).
    intros key Hin. cbn [precision_table map fst In] in Hin.
    repeat (destruct Hin as [<- | Hin]; [reflexivity |]).
    contradiction.
Defined.

(** * Further properties of the code *)

(** ** Loops that write a vector in place *)

Section InPlace.

Context {A : Type}.

(** A loop [for n in 0..k) y[off + n] = h(y, n)] whose right-hand side
    reads of [y] what is still unwritten: it fills the [k] cells after the
    first [off] with [g 0 .. g (k-1)]. *)
Lemma fold_insert_offset (h : list A -> nat -> A) (g : nat -> A)
    (pre rest : list A) (k : nat) :
  (forall n done, (n < k)%nat -> length done = n ->
     h (pre ++ done ++ drop n rest) n = g n) ->
  (k <= length rest)%nat ->
  fold_left (fun y n => <[(length pre + n)%nat := h y n]> y) (seq 0 k)
            (pre ++ rest)
  = pre ++ map g (seq 0 k) ++ drop k rest.
Proof.
  induction k as [| k IH]; intros Hh Hk.
  - simpl. rewrite drop_0. reflexivity.
  - rewrite seq_S, fold_left_app, IH by (try lia; intros; apply Hh; lia).
    cbn [fold_left Nat.add].
    rewrite (Hh k (map g (seq 0 k))) by (try lia; now rewrite length_map, length_seq).
    rewrite map_app. cbn [map].
    destruct (lookup_lt_is_Some_2 rest k ltac:(lia)) as [r Hr].
    rewrite (drop_S rest r k Hr).
    rewrite insert_app_r_alt by lia.
    rewrite insert_app_r_alt by (rewrite length_map, length_seq; lia).
    replace (length pre + k - length pre - length (map g (seq 0 k)))%nat
      with 0%nat by (rewrite length_map, length_seq; lia).
    cbn [insert list_insert]. rewrite <- app_assoc. reflexivity.
Qed.

Lemma fold_insert_seq (h : list A -> nat -> A) (g : nat -> A)
    (y : list A) (k : nat) :
  (forall n done, (n < k)%nat -> length done = n ->
     h (done ++ drop n y) n = g n) ->
  (k <= length y)%nat ->
  fold_left (fun y n => <[n := h y n]> y) (seq 0 k) y
  = map g (seq 0 k) ++ drop k y.
Proof.
  intros Hh Hk.
  exact (fold_insert_offset h g [] y k Hh Hk).
Qed.

(** Such a loop never changes the length, whatever it writes. *)
Lemma fold_insert_length (idx : nat -> nat) (h : list A -> nat -> A)
    (l : list nat) (y : list A) :
  length (fold_left (fun y n => <[idx n := h y n]> y) l y) = length y.
Proof.
  revert y. induction l as [| n l IH]; intros y; simpl.
  - reflexivity.
  - rewrite IH, length_insert. reflexivity.
Qed.

End InPlace.

(** ** The FIR kernel *)

Section Fir.

Context {T : Type} `{Numeric T}.

Lemma fold_left_ext {A B : Type} (f g : A -> B -> A) (l : list B) (a : A) :
  (forall a b, In b l -> f a b = g a b) -> fold_left f l a = fold_left g l a.
Proof.
  revert a. induction l as [| b l IH]; intros a Hfg; simpl.
  - reflexivity.
  - rewrite (Hfg a b) by (left; reflexivity).
    apply IH. intros a' b' Hb'. apply Hfg. right. exact Hb'.
Qed.

Lemma map_at_seq {B : Type} (F : T -> B) (x : list T) :
  map (fun n => F (at_ x n)) (seq 0 (length x)) = map F x.
Proof.
  apply list_eq. intros i.
  change (map (fun n => F (at_ x n)) (seq 0 (length x)))
    with ((fun n => F (at_ x n)) <$> seq 0 (length x)).
  change (map F x) with (F <$> x).
  rewrite !list_lookup_fmap.
  destruct (Nat.lt_ge_cases i (length x)) as [Hi | Hi].
  - rewrite lookup_seq_lt by exact Hi.
    destruct (lookup_lt_is_Some_2 x i Hi) as [v Hv].
    unfold at_. cbn [fmap option_fmap option_map Nat.add]. rewrite Hv. reflexivity.
  - rewrite lookup_seq_ge by exact Hi.
    rewrite (lookup_ge_None_2 x i Hi). reflexivity.
Qed.

(** The in-place loop over [n] computes each output sample on its own. *)
Lemma fir_filter_samples (h x : list T) (opts : fir.FIROptions) :
  fir.fir_filter h x opts = map (fir_sample opts h x) (seq 0 (length x)).
Proof.
  unfold fir.fir_filter. cbv zeta.
  rewrite (fold_left_ext _ (fun y n => <[n := fir_sample opts h x n]> y)).
  - rewrite (fold_insert_seq (fun _ n => fir_sample opts h x n)
               (fir_sample opts h x)) by (try reflexivity; rewrite length_replicate; lia).
    rewrite drop_ge by (rewrite length_replicate; lia).
    apply app_nil_r.
  - intros y n _. unfold fir_sample.
    destruct (fir.accumulate_in_fp32 opts).
    + destruct (fold_left (fir.tap_fp32 opts h x n) (seq 0 (length h))
                          (f32.zero, f32.zero)); reflexivity.
    + destruct (fold_left (fir.tap opts h x n) (seq 0 (length h))
                          (num_zero, num_zero)); reflexivity.
Qed.

Lemma at_app_l (x x' : list T) (i : nat) :
  (i < length x)%nat -> at_ (x ++ x') i = at_ x i.
Proof. intros Hi. unfold at_. rewrite lookup_app_l by exact Hi. reflexivity. Qed.

Lemma fir_sample_prefix (opts : fir.FIROptions) (h x x' : list T) (n : nat) :
  (n < length x)%nat ->
  fir_sample opts h (x ++ x') n = fir_sample opts h x n.
Proof.
  intros Hn. unfold fir_sample.
  rewrite (fold_left_ext (fir.tap_fp32 opts h (x ++ x') n)
                         (fir.tap_fp32 opts h x n)).
  - rewrite (fold_left_ext (fir.tap opts h (x ++ x') n) (fir.tap opts h x n)).
    + reflexivity.
    + intros [sum c] k _. unfold fir.tap.
      rewrite at_app_l by lia. reflexivity.
  - intros [sum c] k _. unfold fir.tap_fp32.
    rewrite at_app_l by lia. reflexivity.
Qed.

End Fir.

(** X1: [fir_filter] returns one sample per input sample, whatever the
    filter, the options and the numeric type; with no taps every sample is
    the initial sum, [T{}] or [T(0.0f)] by the accumulation mode; with no
    input the output is empty. *)
Theorem fir_filter_length {T : Type} `{Numeric T}
    (h x : list T) (opts : fir.FIROptions) :
  length (fir.fir_filter h x opts) = length x
  /\ fir.fir_filter [] x opts
     = replicate (length x)
         (if fir.accumulate_in_fp32 opts then num_of_float f32.zero
          else num_zero)
  /\ fir.fir_filter h [] opts = [].
Proof.
  split; [| split].
  - rewrite fir_filter_samples, length_map, length_seq. reflexivity.
  - rewrite fir_filter_samples. unfold fir_sample. cbn [length seq fold_left fst].
    generalize (if fir.accumulate_in_fp32 opts then num_of_float f32.zero
                else num_zero).
    intros z. generalize 0%nat.
    induction (length x) as [| N IH]; intros start; simpl.
    + reflexivity.
    + rewrite IH. reflexivity.
  - reflexivity.
Qed.

(** X2: the filter is causal: the first [length x] samples of the output
    for [x ++ x'] are the output for [x], so a sample never depends on
    later input. *)
Theorem fir_filter_causal {T : Type} `{Numeric T}
    (h x x' : list T) (opts : fir.FIROptions) :
  take (length x) (fir.fir_filter h (x ++ x') opts) = fir.fir_filter h x opts.
Proof.
  rewrite !fir_filter_samples, length_app, seq_app, map_app.
  rewrite take_app_length' by (rewrite length_map, length_seq; reflexivity).
  apply map_ext_in. intros n Hn. apply in_seq in Hn.
  apply fir_sample_prefix. lia.
Qed.

(** X3: with a single tap [c] and the default options, every output
    sample is [T{} + c * x[n]]: the product is added to the zero the sum
    starts from. *)
Theorem fir_filter_single_tap {T : Type} `{Numeric T} (c : T) (x : list T) :
  fir.fir_filter [c] x fir.default_options
  = map (fun v => num_add num_zero (num_mul c v)) x.
Proof.
  rewrite fir_filter_samples.
  rewrite <- (map_at_seq (fun v => num_add num_zero (num_mul c v)) x).
  apply map_ext_in. intros n Hn.
  unfold fir_sample, fir.tap. cbn [fir.accumulate_in_fp32 fir.default_options
    fir.use_kahan length seq fold_left fst].
  replace (0 <=? n)%nat with true by (symmetry; apply Nat.leb_le; lia).
  rewrite Nat.sub_0_r. reflexivity.
Qed.

(** ** The matrix product *)

Section MatMul.

Context {T : Type} `{Numeric T}.
Variables (A B : list T) (n : nat) (opts : matmul.MatMulOptions).

Local Abbreviation row :=
  (fun i => map (matmul.cell opts A B n i) (seq 0 n)).

Lemma rows_length (k : nat) :
  length (flat_map row (seq 0 k)) = (k * n)%nat.
Proof.
  induction k as [| k IH].
  - reflexivity.
  - rewrite seq_S, flat_map_app, length_app, IH. cbn [flat_map Nat.add].
    rewrite app_nil_r, length_map, length_seq. lia.
Qed.

(** After [k] trips of the [i] loop the first [k] rows are written and the
    rest of [C] is untouched. *)
Lemma matmul_rows (k : nat) (C : list T) :
  (k <= n)%nat -> length C = (n * n)%nat ->
  fold_left
    (fun C i =>
       fold_left
         (fun C j => <[(i * n + j)%nat := matmul.cell opts A B n i j]> C)
         (seq 0 n) C)
    (seq 0 k) C
  = flat_map row (seq 0 k) ++ drop (k * n) C.
Proof.
  intros Hk HC. induction k as [| k IH].
  - simpl. rewrite drop_0. reflexivity.
  - rewrite seq_S, fold_left_app, IH by lia. cbn [fold_left Nat.add].
    rewrite (fold_left_ext _
               (fun C j =>
                  <[(length (flat_map row (seq 0 k)) + j)%nat :=
                      matmul.cell opts A B n k j]> C))
      by (intros; rewrite rows_length; reflexivity).
    rewrite (fold_insert_offset
               (fun _ j => matmul.cell opts A B n k j)
               (matmul.cell opts A B n k)).
    + rewrite drop_drop, flat_map_app. cbn [flat_map].
      rewrite app_nil_r, <- app_assoc.
      replace (k * n + n)%nat with (S k * n)%nat by lia. reflexivity.
    + reflexivity.
    + rewrite length_drop, HC. nia.
Qed.

End MatMul.


(** ** What the iterative kernels return *)

Section NewtonResult.

Context {T : Type} `{Numeric T}.
Variables (f df : T -> T) (opts : newton.NewtonOptions).

Local Abbreviation criterion := (newton.criterion f opts).
Local Abbreviation derivative_zero := (newton.derivative_zero df).
Local Abbreviation step := (newton.step f df).

(** The loop entered at iteration [iter] with [fuel] trips left returns
    after some [k <= fuel] updates, none of the iterates before having met
    either test. *)
Lemma newton_loop_result (fuel iter : nat) (x : T) :
  (iter + fuel = newton.max_iters opts)%nat ->
  exists k,
    (k <= fuel)%nat
    /\ newton.iterations (newton.loop f df opts fuel iter x) = (iter + k)%nat
    /\ newton.root (newton.loop f df opts fuel iter x) = Nat.iter k step x
    /\ (forall j, (j < k)%nat ->
          criterion (Nat.iter j step x) = false
          /\ derivative_zero (Nat.iter j step x) = false)
    /\ (newton.converged (newton.loop f df opts fuel iter x) = true ->
        (k < fuel)%nat /\ criterion (Nat.iter k step x) = true)
    /\ (newton.converged (newton.loop f df opts fuel iter x) = false ->
        k = fuel
        \/ (criterion (Nat.iter k step x) = false
            /\ derivative_zero (Nat.iter k step x) = true)).
Proof.
  revert iter x. induction fuel as [| fuel IH]; intros iter x Hsum.
  - exists 0%nat. cbn [newton.loop newton.iterations newton.root
                        newton.converged].
    change (Nat.iter 0 step x) with x.
    split; [lia |]. split; [lia |]. split; [reflexivity |].
    split; [intros j Hj; lia |]. split; [discriminate |].
    intros _. left. reflexivity.
  - rewrite newton_loop_S.
    destruct (criterion x) eqn:Hc; [| destruct (derivative_zero x) eqn:Hd].
    + exists 0%nat. cbn [newton.iterations newton.root newton.converged].
      change (Nat.iter 0 step x) with x.
      split; [lia |]. split; [lia |]. split; [reflexivity |].
      split; [intros j Hj; lia |]. split; [intros _; split; [lia | exact Hc] |].
      discriminate.
    + exists 0%nat. cbn [newton.iterations newton.root newton.converged].
      change (Nat.iter 0 step x) with x.
      split; [lia |]. split; [lia |]. split; [reflexivity |].
      split; [intros j Hj; lia |]. split; [discriminate |].
      intros _. right. split; assumption.
    + destruct (IH (S iter) (step x) ltac:(lia))
        as (k & Hk & Hit & Hroot & Hrun & Hconv & Hstop).
      exists (S k). rewrite Nat.iter_succ_r.
      split; [lia |]. split; [rewrite Hit; lia |]. split; [exact Hroot |].
      split.
      { intros j Hj. destruct j as [| j];
          [split; assumption | rewrite Nat.iter_succ_r; apply Hrun; lia]. }
      split.
      { intros Hcv. destruct (Hconv Hcv). split; [lia | assumption]. }
      intros Hfalse. destruct (Hstop Hfalse) as [-> | Hz];
        [left; reflexivity | right; exact Hz].
Qed.

End NewtonResult.

Section GradientDescentResult.

Context {T : Type} `{Numeric T}.
Variables (Q b : list T) (dim : nat)
          (opts : gradient_descent.GradientDescentOptions).

Local Abbreviation stops := (gradient_descent.stops Q b dim opts).
Local Abbreviation next := (gradient_descent.next Q b dim opts).

Lemma gd_loop_result (fuel iter : nat) (st : list T * list T) :
  (iter + fuel = gradient_descent.max_iters opts)%nat ->
  exists k,
    (k <= fuel)%nat
    /\ gradient_descent.iterations
         (gradient_descent.loop Q b dim opts fuel iter (fst st) (snd st))
       = (iter + k)%nat
    /\ gradient_descent.x
         (gradient_descent.loop Q b dim opts fuel iter (fst st) (snd st))
       = fst (Nat.iter k next st)
    /\ (forall j, (j < k)%nat -> stops (Nat.iter j next st) = false)
    /\ (gradient_descent.converged
          (gradient_descent.loop Q b dim opts fuel iter (fst st) (snd st))
        = true ->
        (k < fuel)%nat /\ stops (Nat.iter k next st) = true)
    /\ (gradient_descent.converged
          (gradient_descent.loop Q b dim opts fuel iter (fst st) (snd st))
        = false -> k = fuel).
Proof.
  revert iter st. induction fuel as [| fuel IH]; intros iter st Hsum.
  - exists 0%nat. cbn [gradient_descent.loop gradient_descent.iterations
                        gradient_descent.x gradient_descent.converged].
    change (Nat.iter 0 next st) with st.
    split; [lia |]. split; [lia |]. split; [reflexivity |].
    split; [intros j Hj; lia |]. split; [discriminate | reflexivity].
  - rewrite gd_loop_S. destruct (stops st) eqn:Hc.
    + exists 0%nat. cbn [gradient_descent.iterations gradient_descent.x
                          gradient_descent.converged].
      change (Nat.iter 0 next st) with st.
      split; [lia |]. split; [lia |]. split; [reflexivity |].
      split; [intros j Hj; lia |].
      split; [intros _; split; [lia | exact Hc] | discriminate].
    + destruct (IH (S iter) (next st) ltac:(lia))
        as (k & Hk & Hit & Hx & Hrun & Hconv & Hstop).
      exists (S k). rewrite Nat.iter_succ_r.
      split; [lia |]. split; [rewrite Hit; lia |]. split; [exact Hx |].
      split.
      { intros j Hj. destruct j as [| j];
          [exact Hc | rewrite Nat.iter_succ_r; apply Hrun; lia]. }
      split.
      { intros Hcv. destruct (Hconv Hcv). split; [lia | assumption]. }
      intros Hfalse. rewrite (Hstop Hfalse). reflexivity.
Qed.

(** The first [for i] loop overwrites the whole of a [dim]-long
    [gradient]: what it leaves does not depend on what was there. *)
Lemma compute_gradient_fresh (x gradient : list T) :
  length gradient = dim ->
  gradient_descent.compute_gradient Q b dim x gradient = gradient_at Q b dim x.
Proof.
  intros Hlen. unfold gradient_descent.compute_gradient, gradient_at.
  rewrite (fold_insert_seq
             (fun _ i =>
                num_add
                  (fold_left
                     (fun acc j =>
                        num_add acc (num_mul (at_ Q (i * dim + j)) (at_ x j)))
                     (seq 0 dim) num_zero)
                  (at_ b i))
             (fun i =>
                num_add
                  (fold_left
                     (fun acc j =>
                        num_add acc (num_mul (at_ Q (i * dim + j)) (at_ x j)))
                     (seq 0 dim) num_zero)
                  (at_ b i)))
    by (try reflexivity; lia).
  rewrite drop_ge by lia. apply app_nil_r.
Qed.

Lemma gradient_at_length (x : list T) : length (gradient_at Q b dim x) = dim.
Proof. unfold gradient_at. rewrite length_map, length_seq. reflexivity. Qed.

(** The state at the head of every iteration: [x] has the length of the
    initial point, [gradient] has [dim] entries. *)
Lemma gd_state_lengths (initial : list T) (k : nat) :
  length (fst (gradient_descent.state_at Q b dim opts initial k))
  = length initial
  /\ length (snd (gradient_descent.state_at Q b dim opts initial k)) = dim.
Proof.
  unfold gradient_descent.state_at. induction k as [| k [IHx IHg]].
  - split; [reflexivity | apply length_replicate].
  - cbn [Nat.iter nat_rect]. unfold gradient_descent.next at 1 3.
    cbn [fst snd]. split.
    + unfold gradient_descent.update. rewrite fold_insert_length. exact IHx.
    + rewrite compute_gradient_fresh by exact IHg. apply gradient_at_length.
Qed.

End GradientDescentResult.

(** X5: whatever its inputs, [newton_raphson] returns the iterate whose
    number is the [iterations] it reports, at most [max_iters]; no earlier
    iterate met the criterion or had a zero derivative; [converged] is
    reported only within the budget and only for a root that meets the
    criterion; and a result that is not converged either used up the
    budget or stopped at a zero derivative. *)
Theorem newton_result_sound {T : Type} `{Numeric T}
    (f df : T -> T) (opts : newton.NewtonOptions) (initial : T) :
  let r := newton.newton_raphson f df opts initial in
  (newton.iterations r <= newton.max_iters opts)%nat
  /\ newton.root r = newton.iterate f df initial (newton.iterations r)
  /\ (forall j, (j < newton.iterations r)%nat ->
        newton.criterion f opts (newton.iterate f df initial j) = false
        /\ newton.derivative_zero df (newton.iterate f df initial j) = false)
  /\ (newton.converged r = true ->
      (newton.iterations r < newton.max_iters opts)%nat
      /\ newton.criterion f opts (newton.root r) = true)
  /\ (newton.converged r = false ->
      newton.iterations r = newton.max_iters opts
      \/ (newton.criterion f opts (newton.root r) = false
          /\ newton.derivative_zero df (newton.root r) = true)).
Proof.
  cbv zeta. unfold newton.newton_raphson, newton.iterate.
  destruct (newton_loop_result f df opts (newton.max_iters opts) 0 initial
              ltac:(lia))
    as (k & Hk & Hit & Hroot & Hrun & Hconv & Hstop).
  rewrite Hit, Hroot. cbn [Nat.add].
  split; [lia |]. split; [reflexivity |]. split; [exact Hrun |].
  split; [exact Hconv |].
  intros Hfalse. destruct (Hstop Hfalse) as [-> | Hz];
    [left; reflexivity | right; exact Hz].
Qed.

(** X6: whatever its inputs, [gradient_descent_quadratic] reports at most
    [max_iters] iterations and returns a point as long as the initial one;
    [converged] is reported only within the budget and only when the norm
    of the gradient [Q x + b] at the returned point is below [tol]; a
    result that is not converged has [iterations = max_iters]. *)
Theorem gradient_descent_result_sound {T : Type} `{Numeric T}
    (Q b : list T) (dim : nat)
    (opts : gradient_descent.GradientDescentOptions) (initial : list T) :
  let r := gradient_descent.gradient_descent_quadratic Q b dim opts initial in
  (gradient_descent.iterations r <= gradient_descent.max_iters opts)%nat
  /\ length (gradient_descent.x r) = length initial
  /\ (gradient_descent.converged r = true ->
      (gradient_descent.iterations r < gradient_descent.max_iters opts)%nat
      /\ f64.ltb
           (gradient_descent.grad_norm
              (gradient_at Q b dim (gradient_descent.x r)))
           (gradient_descent.tol opts) = true)
  /\ (gradient_descent.converged r = false ->
      gradient_descent.iterations r = gradient_descent.max_iters opts).
Proof.
  cbv zeta. unfold gradient_descent.gradient_descent_quadratic.
  destruct (gd_loop_result Q b dim opts (gradient_descent.max_iters opts) 0
              (initial, replicate dim num_zero) ltac:(lia))
    as (k & Hk & Hit & Hx & Hrun & Hconv & Hstop).
  cbn [fst snd] in Hit, Hx, Hconv, Hstop.
  rewrite Hit, Hx. cbn [Nat.add].
  destruct (gd_state_lengths Q b dim opts initial k) as [Hlx Hlg].
  unfold gradient_descent.state_at in Hlx, Hlg.
  split; [lia |]. split; [exact Hlx |]. split.
  - intros Hcv. destruct (Hconv Hcv) as [Hlt Hs]. split; [exact Hlt |].
    unfold gradient_descent.stops in Hs.
    rewrite compute_gradient_fresh in Hs by exact Hlg. exact Hs.
  - intros Hfalse. rewrite (Hstop Hfalse). reflexivity.
Qed.

(** ** Tolerances that are not positive *)

Section Tolerance.

(** A value that is not negative is below no tolerance that is zero,
    negative or NaN. *)
Lemma ltb_nonpositive (g tol : spec_float) :
  match g with
  | S754_finite true _ _ | S754_infinity true => False
  | _ => True
  end ->
  SFltb (S754_zero false) tol = false -> SFltb g tol = false.
Proof.
  destruct g as [sg | [|] | | [|] mg eg], tol as [st | [|] | | [|] mt et];
    simpl; intros Hg Htol; try contradiction; try reflexivity;
    try discriminate.
Qed.

Lemma round_aux_sign (p em : Z) (sx : bool) (mx ex : Z) (lx : location) :
  match binary_round_aux p em sx mx ex lx with
  | S754_zero s | S754_infinity s | S754_finite s _ _ => s = sx
  | S754_nan => True
  end.
Proof.
  unfold binary_round_aux.
  destruct (shr_fexp p em mx ex lx) as [mrs' e'].
  destruct (shr_fexp p em _ e' loc_Exact) as [mrs'' e''].
  destruct (shr_m mrs'') as [| m | m]; [reflexivity | | exact I].
  destruct (e'' <=? em - p); reflexivity.
Qed.

Lemma sqrt_not_negative (x : double) :
  match f64.sqrt x with
  | S754_finite true _ _ | S754_infinity true => False
  | _ => True
  end.
Proof.
  unfold f64.sqrt, SFsqrt.
  destruct x as [s | [|] | | [|] m e]; try exact I.
  destruct (SFsqrt_core_binary f64.prec f64.emax (Z.pos m) e) as [[mz ez] lz].
  pose proof (round_aux_sign f64.prec f64.emax false mz ez lz) as Hs.
  destruct (binary_round_aux f64.prec f64.emax false mz ez lz) as [s | s | | s m' e'];
    try exact I; subst s; exact I.
Qed.

Lemma fabs_not_negative (x : double) :
  match f64.fabs x with
  | S754_finite true _ _ | S754_infinity true => False
  | _ => True
  end.
Proof. destruct x; exact I. Qed.

End Tolerance.

(** X7: with a tolerance that is zero, negative or NaN (one that [0.0] is
    not below) neither kernel ever reports convergence: [newton_raphson]
    returns [converged = false], and [gradient_descent_quadratic] runs out
    its budget. *)
Theorem nonpositive_tolerance_never_converges {T : Type} `{Numeric T}
    (f df : T -> T) (nopts : newton.NewtonOptions) (initial : T)
    (Q b : list T) (dim : nat)
    (gopts : gradient_descent.GradientDescentOptions) (x0 : list T) :
  (f64.ltb f64.zero (newton.tol nopts) = false ->
   newton.converged (newton.newton_raphson f df nopts initial) = false)
  /\ (f64.ltb f64.zero (gradient_descent.tol gopts) = false ->
      gradient_descent.converged
        (gradient_descent.gradient_descent_quadratic Q b dim gopts x0) = false
      /\ gradient_descent.iterations
           (gradient_descent.gradient_descent_quadratic Q b dim gopts x0)
         = gradient_descent.max_iters gopts).
Proof.
  split.
  - intros Htol. unfold newton.newton_raphson.
    destruct (newton_loop_result f df nopts (newton.max_iters nopts) 0 initial
                ltac:(lia))
      as (k & _ & _ & _ & _ & Hconv & _).
    destruct (newton.converged _) eqn:Hcv; [| reflexivity].
    destruct (Hconv eq_refl) as [_ Hc]. unfold newton.criterion in Hc.
    rewrite (ltb_nonpositive _ _ (fabs_not_negative _) Htol) in Hc.
    discriminate.
  - intros Htol. unfold gradient_descent.gradient_descent_quadratic.
    destruct (gd_loop_result Q b dim gopts (gradient_descent.max_iters gopts) 0
                (x0, replicate dim num_zero) ltac:(lia))
      as (k & _ & Hit & _ & _ & Hconv & Hstop).
    cbn [fst snd] in Hit, Hconv, Hstop.
    destruct (gradient_descent.converged _) eqn:Hcv.
    + destruct (Hconv eq_refl) as [_ Hc]. unfold gradient_descent.stops in Hc.
      unfold gradient_descent.grad_norm in Hc.
      rewrite (ltb_nonpositive _ _ (sqrt_not_negative _) Htol) in Hc.
      discriminate.
    + split; [reflexivity |]. rewrite Hit, (Hstop eq_refl). reflexivity.
Qed.

Lemma nonpositive_tolerance_never_converges_witness :
  let one := f64.lit 1 0 in
  newton.converged
    (newton.newton_raphson (fun _ : double => f64.zero) (fun _ => one)
       {| newton.max_iters := 3; newton.tol := f64.zero |} one) = false
  /\ gradient_descent.converged
       (gradient_descent.gradient_descent_quadratic [one] [f64.zero] 1
          {| gradient_descent.step_size := one;
             gradient_descent.max_iters := 3;
             gradient_descent.tol := S754_nan |} [f64.zero]) = false
  /\ gradient_descent.iterations
       (gradient_descent.gradient_descent_quadratic [one] [f64.zero] 1
          {| gradient_descent.step_size := one;
             gradient_descent.max_iters := 3;
             gradient_descent.tol := S754_nan |} [f64.zero]) = 3%nat.
Proof.
  intros one.
  pose proof (nonpositive_tolerance_never_converges (T := double)
                (fun _ => f64.zero) (fun _ => one)
                {| newton.max_iters := 3; newton.tol := f64.zero |} one
                [one] [f64.zero] 1
                {| gradient_descent.step_size := one;
                   gradient_descent.max_iters := 3;
                   gradient_descent.tol := S754_nan |} [f64.zero])
    as [HN HG].
  split; [apply HN; reflexivity | apply HG; reflexivity].
Defined.

(** ** More on the codec *)

Section CodecValues.

(** The byte that [pack] makes of in-range fields, and its value. *)
Lemma pack_value (s : bool) (ev q : Z) :
  1 <= ev <= 6 -> 0 <= q <= 15 ->
  pack default_layout (sign_of s) ev q = (if s then 128 else 0) + 16 * ev + q
  /\ p3109_dequantize (pack default_layout (sign_of s) ev q)
     = S754_finite s (Z.to_pos (8388608 + q * 524288)) (ev - 26).
Proof.
  intros Hev Hq.
  pose (P := fun s ev q =>
    let c := pack default_layout (sign_of s) ev q in
    (c =? (if s then 128 else 0) + 16 * ev + q)
    && float_beq (p3109_dequantize c)
         (S754_finite s (Z.to_pos (8388608 + q * 524288)) (ev - 26))).
  assert (HP : P s ev q = true).
  { apply (Z_range_forallb (fun q => P s ev q) 0 16); [| lia].
    apply (Z_range_forallb
             (fun ev => forallb (fun q => P s ev q)
                          (map (fun i => 0 + Z.of_nat i) (seq 0 16)))
             1 6); [| lia].
    destruct s; vm_compute; reflexivity. }
  unfold P in HP. cbv zeta in HP. apply andb_true_iff in HP as [Hc Hd].
  split; [apply Z.eqb_eq; exact Hc | apply float_beq_eq; exact Hd].
Qed.

(** A normal [float] has 24 mantissa digits. *)
Lemma bounded_normal (m : positive) (e : Z) :
  bounded 24 128 m e = true -> -149 < e ->
  digits2_pos m = 24%positive /\ 8388608 <= Z.pos m < 16777216.
Proof.
  intros Hb He. destruct (bounded_cases m e Hb) as [[Hd _] | [_ Hsub]];
    [| lia].
  split; [exact Hd |]. pose proof (digits2_pos_bounds m) as Hm.
  rewrite Hd in Hm. exact Hm.
Qed.

Lemma bounded_digits (m : positive) (e : Z) :
  bounded 24 128 m e = true ->
  Z.pos (digits2_pos m) <= 24 /\ -149 <= e.
Proof.
  intros Hb. destruct (bounded_cases m e Hb) as [[Hd He] | [Hd He]].
  - rewrite Hd. lia.
  - lia.
Qed.

(** The code of a finite [float] on integers: the sign bit, and below it
    [0] on underflow, [111] on overflow, [16 * exp_val + mantissa]
    otherwise. *)
Lemma quantize_finite_arith (s : bool) (m : positive) (e : Z) :
  bounded 24 128 m e = true ->
  p3109_quantize (S754_finite s m e)
  = (if s then 128 else 0)
    + (let ev := e + Z.pos (digits2_pos m) + 2 in
       if ev >? 6 then 111
       else if ev <? 1 then 0
       else
         let q := (Z.pos m - 8388608 + 262144) / 524288 in
         if (q >? 15) && (ev + 1 >? 6) then 111 else 16 * ev + q).
Proof.
  intros Hb. rewrite (quantize_finite s m e Hb). cbv zeta.
  change (2 ^ 23) with 8388608. change (2 ^ 18) with 262144.
  change (2 ^ 19) with 524288.
  set (ev := e + Z.pos (digits2_pos m) + 2).
  set (q := (Z.pos m - 8388608 + 262144) / 524288).
  destruct (Z.gtb_spec ev 6) as [Hhi | Hhi];
    [rewrite saturate_default; destruct s; reflexivity |].
  destruct (Z.ltb_spec ev 1) as [Hlo | Hlo]; [destruct s; reflexivity |].
  assert (Hq : 0 <= q <= 16).
  { destruct (bounded_normal m e Hb) as [Hd _].
    - destruct (bounded_digits m e Hb). unfold ev in Hlo. lia.
    - pose proof (mantissa_bounds m Hd) as Hmb.
      change (2 ^ 23) with 8388608 in Hmb.
      change (2 ^ 18) with 262144 in Hmb.
      change (2 ^ 19) with 524288 in Hmb. exact Hmb. }
  destruct (Z.gtb_spec q 15) as [Hc | Hc]; cbn [andb].
  - destruct (Z.gtb_spec (ev + 1) 6) as [Hhi' | Hhi'].
    + rewrite saturate_default. destruct s; reflexivity.
    + destruct (pack_value s (ev + 1) 0) as [-> _]; lia.
  - destruct (pack_value s ev q) as [-> _]; lia.
Qed.

End CodecValues.

Section CodecOrder.

Lemma ltb_finite_nonneg (m c : positive) (e ec : Z) :
  SFltb (S754_finite false m e) (S754_finite false c ec) = true
  <-> e < ec \/ (e = ec /\ Z.pos m < Z.pos c).
Proof.
  unfold SFltb, SFcompare.
  destruct (Z.compare_spec e ec) as [Heq | Hlt | Hgt].
  - change (Pos.compare_cont Eq m c) with (Pos.compare m c).
    destruct (Pos.compare_spec m c) as [Hm | Hm | Hm]; simpl; split; intros Hx;
      first [ discriminate
            | reflexivity
            | right; split; [assumption | lia]
            | destruct Hx as [? | [_ ?]]; lia ].
  - simpl. split; [intros _; left; exact Hlt | reflexivity].
  - simpl. split; [discriminate | intros [? | [? _]]; lia].
Qed.

Lemma leb_finite_nonneg (m c : positive) (e ec : Z) :
  SFleb (S754_finite false m e) (S754_finite false c ec) = true
  <-> e < ec \/ (e = ec /\ Z.pos m <= Z.pos c).
Proof.
  unfold SFleb, SFcompare.
  destruct (Z.compare_spec e ec) as [Heq | Hlt | Hgt].
  - change (Pos.compare_cont Eq m c) with (Pos.compare m c).
    destruct (Pos.compare_spec m c) as [Hm | Hm | Hm]; simpl; split; intros Hx;
      first [ discriminate
            | reflexivity
            | right; split; [assumption | lia]
            | destruct Hx as [? | [_ ?]]; lia ].
  - simpl. split; [intros _; left; exact Hlt | reflexivity].
  - simpl. split; [discriminate | intros [? | [? _]]; lia].
Qed.

Lemma dequantize_valid (c : Z) :
  is_uint8 c -> f32.valid (p3109_dequantize c) = true.
Proof.
  intros Hu.
  apply (uint8_forallb (fun c => f32.valid (p3109_dequantize c)));
    [vm_compute; reflexivity | exact Hu].
Qed.

(** The sign bit of a byte, and the sign of its value. *)
Lemma uint8_sign (c : Z) :
  is_uint8 c ->
  Z.testbit c 7 = (128 <=? c)
  /\ (c <> 0xFF -> f32.signbit (p3109_dequantize c) = (128 <=? c)).
Proof.
  intros Hu.
  pose (P := fun c =>
    Bool.eqb (Z.testbit c 7) (128 <=? c)
    && ((c =? 0xFF)
        || Bool.eqb (f32.signbit (p3109_dequantize c)) (128 <=? c))).
  assert (HP : P c = true)
    by (apply uint8_forallb; [vm_compute; reflexivity | exact Hu]).
  unfold P in HP. apply andb_true_iff in HP as [H1 H2].
  split; [apply Bool.eqb_prop; exact H1 |].
  intros Hne. apply orb_true_iff in H2 as [H2 | H2].
  - apply Z.eqb_eq in H2. contradiction.
  - apply Bool.eqb_prop. exact H2.
Qed.

(** The part of the code of a finite [float] below the sign bit. *)
Lemma quantize_finite_magnitude (s : bool) (m : positive) (e : Z) :
  bounded 24 128 m e = true ->
  exists r, 0 <= r <= 111
            /\ p3109_quantize (S754_finite s m e) = (if s then 128 else 0) + r.
Proof.
  intros Hb. rewrite (quantize_finite_arith s m e Hb). cbv zeta.
  set (ev := e + Z.pos (digits2_pos m) + 2).
  set (q := (Z.pos m - 8388608 + 262144) / 524288).
  destruct (Z.gtb_spec ev 6) as [Hhi | Hhi]; [exists 111; lia |].
  destruct (Z.ltb_spec ev 1) as [Hlo | Hlo]; [exists 0; lia |].
  assert (Hq : 0 <= q <= 16).
  { destruct (bounded_normal m e Hb) as [Hd _].
    - destruct (bounded_digits m e Hb). unfold ev in Hlo. lia.
    - pose proof (mantissa_bounds m Hd) as Hmb.
      change (2 ^ 23) with 8388608 in Hmb.
      change (2 ^ 18) with 262144 in Hmb.
      change (2 ^ 19) with 524288 in Hmb. exact Hmb. }
  destruct (Z.gtb_spec q 15) as [Hc | Hc]; cbn [andb].
  - destruct (Z.gtb_spec (ev + 1) 6) as [Hhi' | Hhi'];
      [exists 111 | exists (16 * ev + q)]; lia.
  - exists (16 * ev + q). lia.
Qed.

(** The facts about a finite [float] that the arithmetic on its code
    needs: its digit count [d] and the mantissa [q] the code computes. *)
Lemma finite_code_facts (m : positive) (e : Z) :
  bounded 24 128 m e = true ->
  exists d q,
    d = Z.pos (digits2_pos m)
    /\ q = (Z.pos m - 8388608 + 262144) / 524288
    /\ d <= 24 /\ -149 <= e
    /\ (-149 < e ->
        d = 24 /\ 8388608 <= Z.pos m < 16777216
        /\ 524288 * q <= Z.pos m - 8388608 + 262144 < 524288 * (q + 1)).
Proof.
  intros Hb. exists (Z.pos (digits2_pos m)).
  exists ((Z.pos m - 8388608 + 262144) / 524288).
  destruct (bounded_digits m e Hb) as [Hd He].
  split; [reflexivity |]. split; [reflexivity |].
  split; [exact Hd |]. split; [exact He |].
  intros Hn. destruct (bounded_normal m e Hb Hn) as [Hd24 Hm].
  rewrite Hd24. split; [reflexivity |]. split; [exact Hm |].
  pose proof (Z.div_mod (Z.pos m - 8388608 + 262144) 524288 ltac:(lia)) as Hdm.
  pose proof (Z.mod_pos_bound (Z.pos m - 8388608 + 262144) 524288
                ltac:(lia)) as Hmod.
  set (x := Z.pos m - 8388608 + 262144) in *.
  set (qq := x / 524288) in *. set (rr := x mod 524288) in *.
  clearbody qq rr. lia.
Qed.

End CodecOrder.

Ltac code_cases :=
  repeat match goal with
         | |- context [?a >? ?b] => destruct (Z.gtb_spec a b)
         | |- context [?a <? ?b] => destruct (Z.ltb_spec a b)
         end;
  cbn [andb].

(** X8: quantizing is idempotent through the codec: the code of any
    [float] is a byte whose value is again a [float], and quantizing that
    value gives the same code. *)
Theorem quantize_idempotent (f : float) :
  f32.valid f = true ->
  is_uint8 (p3109_quantize f)
  /\ f32.valid (p3109_dequantize (p3109_quantize f)) = true
  /\ p3109_quantize (p3109_dequantize (p3109_quantize f)) = p3109_quantize f.
Proof.
  intros Hv.
  assert (Hu : is_uint8 (p3109_quantize f))
    by (apply canonical_uint8, quantize_canonical, Hv).
  split; [exact Hu |]. split; [apply dequantize_valid, Hu |].
  apply requantize, Hv.
Qed.

Lemma quantize_idempotent_witness :
  is_uint8 (p3109_quantize (S754_finite false 11184811 (-25)))
  /\ f32.valid
       (p3109_dequantize (p3109_quantize (S754_finite false 11184811 (-25))))
     = true
  /\ p3109_quantize
       (p3109_dequantize (p3109_quantize (S754_finite false 11184811 (-25))))
     = p3109_quantize (S754_finite false 11184811 (-25)).
Proof.
  apply (quantize_idempotent (S754_finite false 11184811 (-25))).
  vm_compute. reflexivity.
Defined.

(** X9: the sign survives the codec: for every [float] other than NaN,
    bit 7 of its code is its sign bit, and the value of the code has the
    same sign bit, also when the value is flushed to zero or saturated. *)
Theorem quantize_keeps_sign (f : float) :
  f32.valid f = true -> f32.isnan f = false ->
  Z.testbit (p3109_quantize f) 7 = f32.signbit f
  /\ f32.signbit (p3109_dequantize (p3109_quantize f)) = f32.signbit f.
Proof.
  intros Hv Hnan.
  assert (Hcode : (128 <=? p3109_quantize f) = f32.signbit f
                  /\ p3109_quantize f <> 0xFF).
  { destruct f as [s | s | | s m e].
    - destruct s; (split; [reflexivity | intros Heq; vm_compute in Heq; discriminate Heq]).
    - destruct s; (split; [reflexivity | intros Heq; vm_compute in Heq; discriminate Heq]).
    - discriminate Hnan.
    - destruct (quantize_finite_magnitude s m e Hv) as (r & Hr & ->).
      cbn [f32.signbit]. destruct s; split; lia. }
  destruct Hcode as [Hsign Hne].
  assert (Hu : is_uint8 (p3109_quantize f))
    by (apply canonical_uint8, quantize_canonical, Hv).
  destruct (uint8_sign _ Hu) as [Hbit Hval].
  rewrite Hbit, (Hval Hne), Hsign. split; reflexivity.
Qed.

Lemma quantize_keeps_sign_witness :
  Z.testbit (p3109_quantize (S754_finite true 11184811 (-40))) 7
  = f32.signbit (S754_finite true 11184811 (-40))
  /\ f32.signbit
       (p3109_dequantize (p3109_quantize (S754_finite true 11184811 (-40))))
     = f32.signbit (S754_finite true 11184811 (-40)).
Proof.
  apply (quantize_keeps_sign (S754_finite true 11184811 (-40)));
    vm_compute; reflexivity.
Defined.

(** X10: the flush-to-zero threshold is 0.25: a finite [float] is
    quantized to the zero code of its sign exactly when its magnitude is
    below [0.25 = 8388608 * 2^-25], the smallest value with exponent
    field 1; subnormals included. *)
Theorem flush_to_zero_threshold (s : bool) (m : positive) (e : Z) :
  bounded 24 128 m e = true ->
  (f32.ltb (f32.fabs (S754_finite s m e)) (S754_finite false 8388608 (-25))
   = true
   <-> p3109_quantize (S754_finite s m e) = (if s then 0x80 else 0x00)).
Proof.
  intros Hb. cbn [f32.fabs SFabs]. unfold f32.ltb.
  rewrite ltb_finite_nonneg, (quantize_finite_arith s m e Hb). cbv zeta.
  destruct (finite_code_facts m e Hb) as (d & q & <- & <- & Hd & He & Hnormal).
  clear Hb.
  destruct (Z.eq_dec e (-149)) as [-> | Hne].
  - clear Hnormal. code_cases; destruct s; lia.
  - destruct (Hnormal ltac:(lia)) as (-> & Hm & Hq). clear Hnormal.
    code_cases; destruct s; lia.
Qed.

Lemma flush_to_zero_threshold_witness :
  f32.ltb (f32.fabs (S754_finite true 16777215 (-26)))
          (S754_finite false 8388608 (-25)) = true
  <-> p3109_quantize (S754_finite true 16777215 (-26)) = 0x80.
Proof.
  apply (flush_to_zero_threshold true 16777215 (-26)). reflexivity.
Defined.



(** X12: between the two thresholds the codec rounds to nearest: for a
    [float] [m * 2^e] of magnitude at least 0.25 and below
    [15.75 = 16515072 * 2^-20], the value [m' * 2^e'] of its code has the
    same sign and differs from it by at most [262144 * 2^e], half the
    spacing [524288 * 2^e] of the format's values at that exponent. *)
Theorem quantize_rounds_to_nearest (s : bool) (m : positive) (e : Z) :
  bounded 24 128 m e = true ->
  f32.ltb (f32.fabs (S754_finite s m e)) (S754_finite false 8388608 (-25))
  = false ->
  f32.ltb (f32.fabs (S754_finite s m e)) (S754_finite false 16515072 (-20))
  = true ->
  exists m' e',
    p3109_dequantize (p3109_quantize (S754_finite s m e))
    = S754_finite s m' e'
    /\ e <= e'
    /\ Z.abs (Z.pos m' * 2 ^ (e' - e) - Z.pos m) <= 262144.
Proof.
  intros Hb Hlo Hhi. cbn [f32.fabs SFabs] in Hlo, Hhi. unfold f32.ltb in *.
  rewrite <- not_true_iff_false, ltb_finite_nonneg in Hlo.
  rewrite ltb_finite_nonneg in Hhi.
  rewrite (quantize_finite s m e Hb). cbv zeta.
  change (2 ^ 23) with 8388608. change (2 ^ 18) with 262144.
  change (2 ^ 19) with 524288.
  destruct (finite_code_facts m e Hb) as (d & q & <- & <- & Hd & He & Hnormal).
  clear Hb.
  assert (Hn : -149 < e) by lia.
  destruct (Hnormal Hn) as (-> & Hm & Hq). clear Hnormal.
  assert (He' : -25 <= e <= -20) by lia.
  rewrite gtb_false by lia.
  replace (e + 24 + 2 <? 1) with false by (symmetry; apply Z.ltb_ge; lia).
  destruct (Z.gtb_spec q 15) as [Hc | Hc].
  - rewrite gtb_false by lia.
    destruct (pack_value s (e + 24 + 2 + 1) 0) as [_ ->]; try lia.
    exists (Z.to_pos (8388608 + 0 * 524288)), (e + 24 + 2 + 1 - 26).
    split; [reflexivity |]. split; [lia |].
    replace (e + 24 + 2 + 1 - 26 - e) with 1 by lia.
    change (Z.pos (Z.to_pos (8388608 + 0 * 524288)) * 2 ^ 1) with 16777216.
    lia.
  - destruct (pack_value s (e + 24 + 2) q) as [_ ->]; try lia.
    exists (Z.to_pos (8388608 + q * 524288)), (e + 24 + 2 - 26).
    split; [reflexivity |]. split; [lia |].
    replace (e + 24 + 2 - 26 - e) with 0 by lia.
    rewrite Z2Pos.id by lia. change (2 ^ 0) with 1. lia.
Qed.

Lemma quantize_rounds_to_nearest_witness :
  exists m' e',
    p3109_dequantize (p3109_quantize (S754_finite true 11184811 (-23)))
    = S754_finite true m' e'
    /\ -23 <= e'
    /\ Z.abs (Z.pos m' * 2 ^ (e' - -23) - Z.pos 11184811) <= 262144.
Proof.
  apply (quantize_rounds_to_nearest true 11184811 (-23)); reflexivity.
Defined.

Section CodecRank.

Lemma leb_finite_neg (m c : positive) (e ec : Z) :
  SFleb (S754_finite true m e) (S754_finite true c ec) = true
  <-> SFleb (S754_finite false c ec) (S754_finite false m e) = true.
Proof.
  rewrite leb_finite_nonneg. unfold SFleb, SFcompare.
  destruct (Z.compare_spec e ec) as [Heq | Hlt | Hgt].
  - change (Pos.compare_cont Eq m c) with (Pos.compare m c).
    destruct (Pos.compare_spec m c) as [Hm | Hm | Hm]; simpl; split; intros Hx;
      first [ discriminate
            | reflexivity
            | right; split; [symmetry; assumption | lia]
            | destruct Hx as [? | [_ ?]]; lia ].
  - simpl. split; [discriminate | intros [? | [? _]]; lia].
  - simpl. split; [intros _; left; exact Hgt | reflexivity].
Qed.

(** The codes of two finite positive [float]s are ordered like them. *)
Lemma quantize_monotone_finite (mf mg : positive) (ef eg : Z) :
  bounded 24 128 mf ef = true -> bounded 24 128 mg eg = true ->
  SFleb (S754_finite false mf ef) (S754_finite false mg eg) = true ->
  p3109_quantize (S754_finite false mf ef)
  <= p3109_quantize (S754_finite false mg eg).
Proof.
  intros Hvf Hvg Hle. apply leb_finite_nonneg in Hle.
  rewrite (quantize_finite_arith false mf ef Hvf),
    (quantize_finite_arith false mg eg Hvg). cbv zeta.
  destruct (finite_code_facts mf ef Hvf)
    as (d1 & q1 & <- & <- & Hd1 & He1 & Hn1).
  destruct (finite_code_facts mg eg Hvg)
    as (d2 & q2 & <- & <- & Hd2 & He2 & Hn2).
  clear Hvf Hvg.
  destruct (Z.eq_dec ef (-149)) as [-> | Hne1].
  - clear Hn1.
    destruct (Z.eq_dec eg (-149)) as [-> | Hne2].
    + clear Hn2. code_cases; lia.
    + destruct (Hn2 ltac:(lia)) as (-> & Hm2 & Hq2). clear Hn2.
      code_cases; lia.
  - destruct (Hn1 ltac:(lia)) as (-> & Hm1 & Hq1). clear Hn1.
    destruct (Hn2 ltac:(lia)) as (-> & Hm2 & Hq2). clear Hn2.
    code_cases; lia.
Qed.

(** The code of a finite [float] is the code of its magnitude, at most
    [0x6F], under its sign bit. *)
Lemma quantize_finite_sign (s : bool) (m : positive) (e : Z) :
  bounded 24 128 m e = true ->
  0 <= p3109_quantize (S754_finite false m e) <= 111
  /\ p3109_quantize (S754_finite s m e)
     = (if s then 128 else 0) + p3109_quantize (S754_finite false m e).
Proof.
  intros Hb.
  destruct (quantize_finite_magnitude false m e Hb) as (r & Hr & Hq).
  split; [rewrite Hq; lia |].
  rewrite (quantize_finite_arith s m e Hb),
    (quantize_finite_arith false m e Hb).
  destruct s; reflexivity.
Qed.

End CodecRank.

(** X13: the codec is monotone on all [float]s: if [f <= g] (so neither
    is NaN) then the code of [f] ranks at or below the code of [g] in
    sign-magnitude order, where a byte below [0x80] ranks as itself and a
    byte [0x80 + r] as [- r].  So the codes of [float]s with the sign bit
    clear are ordered as bytes, from [0x00] for [+0.0] to [0x7F] for
    +infinity, and the codes of [float]s with the sign bit set in reverse;
    [-0.0], whose code [0x80] is above every code of a positive value as a
    byte, ranks with [+0.0]. *)
Theorem quantize_monotone (f g : float) :
  f32.valid f = true -> f32.valid g = true ->
  SFleb f g = true ->
  code_rank (p3109_quantize f) <= code_rank (p3109_quantize g)
  /\ (f32.signbit f = false -> f32.signbit g = false ->
      p3109_quantize f <= p3109_quantize g)
  /\ (f32.signbit f = true -> f32.signbit g = true ->
      p3109_quantize g <= p3109_quantize f).
Proof.
  intros Hvf Hvg Hle.
  assert (Hrank : forall s m e, bounded 24 128 m e = true ->
            -111 <= code_rank (p3109_quantize (S754_finite s m e)) <= 111
            /\ code_rank (p3109_quantize (S754_finite s m e))
               = (if s then -1 else 1)
                 * p3109_quantize (S754_finite false m e)).
  { intros s m e Hb. destruct (quantize_finite_sign s m e Hb) as [Hr ->].
    unfold code_rank. change 0x80 with 128.
    destruct s; cbv iota;
      match goal with
      | |- context [?a <=? ?b] => destruct (Z.leb_spec a b)
      end; lia. }
  destruct f as [sf | sf | | sf mf ef], g as [sg | sg | | sg mg eg];
    try discriminate Hle.
  - destruct sf, sg; vm_compute; repeat split; intros; discriminate.
  - destruct sf, sg; try discriminate Hle;
      vm_compute; repeat split; intros; discriminate.
  - destruct sg; [discriminate Hle |].
    destruct (Hrank false mg eg Hvg) as [Hb Hr].
    destruct (quantize_finite_sign false mg eg Hvg) as [Hm Hq].
    destruct sf.
    + change (p3109_quantize (S754_zero true)) with 128.
      change (code_rank 128) with 0.
      split; [lia |]. split; intros; discriminate.
    + change (p3109_quantize (S754_zero false)) with 0.
      change (code_rank 0) with 0.
      split; [lia |]. split; [intros; lia | intros; discriminate].
  - destruct sf, sg; try discriminate Hle;
      vm_compute; repeat split; intros; discriminate.
  - destruct sf, sg; try discriminate Hle;
      vm_compute; repeat split; intros; discriminate.
  - destruct sf; [| discriminate Hle].
    destruct (Hrank sg mg eg Hvg) as [Hb Hr].
    destruct (quantize_finite_sign sg mg eg Hvg) as [Hm Hq].
    change (p3109_quantize (S754_infinity true)) with 254.
    change (code_rank 254) with (-126).
    split; [lia |]. split; [intros; discriminate |].
    intros _ Hs. cbn [f32.signbit] in Hs. subst sg. lia.
  - destruct sf; [| discriminate Hle].
    destruct (Hrank true mf ef Hvf) as [Hb Hr].
    destruct (quantize_finite_sign true mf ef Hvf) as [Hm Hq].
    destruct sg.
    + change (p3109_quantize (S754_zero true)) with 128.
      change (code_rank 128) with 0.
      split; [lia |]. split; [intros; discriminate | intros; lia].
    + change (p3109_quantize (S754_zero false)) with 0.
      change (code_rank 0) with 0.
      split; [lia |]. split; intros; discriminate.
  - destruct sg; [destruct sf; discriminate Hle |].
    destruct (Hrank sf mf ef Hvf) as [Hb Hr].
    destruct (quantize_finite_sign sf mf ef Hvf) as [Hm Hq].
    change (p3109_quantize (S754_infinity false)) with 127.
    change (code_rank 127) with 127.
    split; [lia |]. split; [| intros; discriminate].
    intros Hs _. cbn [f32.signbit] in Hs. subst sf. lia.
  - destruct (Hrank sf mf ef Hvf) as [Hbf Hrf].
    destruct (Hrank sg mg eg Hvg) as [Hbg Hrg].
    destruct (quantize_finite_sign sf mf ef Hvf) as [Hmf Hqf].
    destruct (quantize_finite_sign sg mg eg Hvg) as [Hmg Hqg].
    rewrite Hrf, Hrg, Hqf, Hqg. cbn [f32.signbit].
    destruct sf, sg; try discriminate Hle.
    + apply leb_finite_neg in Hle.
      pose proof (quantize_monotone_finite mg mf eg ef Hvg Hvf Hle).
      split; [lia |]. split; [intros; discriminate | intros; lia].
    + split; [lia |]. split; intros; discriminate.
    + pose proof (quantize_monotone_finite mf mg ef eg Hvf Hvg Hle).
      split; [lia |]. split; [intros; lia | intros; discriminate].
Qed.

Lemma quantize_monotone_witness :
  (code_rank (p3109_quantize (S754_zero true))
   <= code_rank (p3109_quantize (S754_finite false 8388608 (-23)))
   /\ (f32.signbit (S754_zero true) = false ->
       f32.signbit (S754_finite false 8388608 (-23)) = false ->
       p3109_quantize (S754_zero true)
       <= p3109_quantize (S754_finite false 8388608 (-23)))
   /\ (f32.signbit (S754_zero true) = true ->
       f32.signbit (S754_finite false 8388608 (-23)) = true ->
       p3109_quantize (S754_finite false 8388608 (-23))
       <= p3109_quantize (S754_zero true)))
  /\ p3109_quantize (S754_finite false 11184811 (-23))
     <= p3109_quantize (S754_finite false 11184812 (-23))
  /\ p3109_quantize (S754_finite true 11184811 (-23))
     <= p3109_quantize (S754_finite true 11184812 (-22)).
Proof.
  split; [| split].
  - apply quantize_monotone; reflexivity.
  - apply (proj1 (proj2 (quantize_monotone (S754_finite false 11184811 (-23))
                           (S754_finite false 11184812 (-23))
                           eq_refl eq_refl eq_refl)));
      reflexivity.
  - apply (proj2 (proj2 (quantize_monotone (S754_finite true 11184812 (-22))
                           (S754_finite true 11184811 (-23))
                           eq_refl eq_refl eq_refl)));
      reflexivity.
Defined.

(** ** Enumerating pairs of bytes *)

Section Pairs.

Lemma In_code_values (c : Z) :
  is_uint8 c -> In (c, p3109_dequantize c) code_values.
Proof.
  intros Hc. unfold code_values.
  apply (in_map (fun c => (c, p3109_dequantize c))). apply In_codes, Hc.
Qed.

Lemma code_pairs_forallb (P : Z * float -> Z * float -> bool) :
  forallb (fun p => forallb (P p) code_values) code_values = true ->
  forall a b, is_uint8 a -> is_uint8 b ->
    P (a, p3109_dequantize a) (b, p3109_dequantize b) = true.
Proof.
  intros HP a b Ha Hb. rewrite forallb_forall in HP.
  specialize (HP _ (In_code_values a Ha)). rewrite forallb_forall in HP.
  exact (HP _ (In_code_values b Hb)).
Qed.

End Pairs.

(** X14: the bytes order like their values.  On the half with bit 7
    clear, a smaller byte never has a larger value, and a byte from [0x10]
    on has a value strictly above that of every smaller byte, [0x7F] being
    +infinity; on the half with bit 7 set, up to [0xFE], the order is
    reversed. *)
Theorem dequantize_monotone (a b : Z) :
  is_uint8 a -> is_uint8 b -> a < b ->
  (b <= 0x7F ->
   SFleb (p3109_dequantize a) (p3109_dequantize b) = true
   /\ (0x10 <= b ->
       SFltb (p3109_dequantize a) (p3109_dequantize b) = true))
  /\ (0x80 <= a -> b <= 0xFE ->
      SFleb (p3109_dequantize b) (p3109_dequantize a) = true
      /\ (0x90 <= b ->
          SFltb (p3109_dequantize b) (p3109_dequantize a) = true)).
Proof.
  intros Ha Hb Hab.
  pose (P := fun p q : Z * float =>
    if fst p <? fst q then
      (if fst q <=? 0x7F then
         SFleb (snd p) (snd q)
         && (if 0x10 <=? fst q then SFltb (snd p) (snd q) else true)
       else true)
      && (if (0x80 <=? fst p) && (fst q <=? 0xFE) then
            SFleb (snd q) (snd p)
            && (if 0x90 <=? fst q then SFltb (snd q) (snd p) else true)
          else true)
    else true).
  assert (HP : P (a, p3109_dequantize a) (b, p3109_dequantize b) = true)
    by (apply code_pairs_forallb; [vm_compute; reflexivity | assumption ..]).
  unfold P in HP. cbn [fst snd] in HP.
  replace (a <? b) with true in HP by (symmetry; apply Z.ltb_lt; exact Hab).
  apply andb_true_iff in HP as [H1 H2]. split.
  - intros Hb7.
    replace (b <=? 127) with true in H1 by (symmetry; apply Z.leb_le; exact Hb7).
    apply andb_true_iff in H1 as [Hle Hlt]. split; [exact Hle |].
    intros Hb16.
    replace (16 <=? b) with true in Hlt by (symmetry; apply Z.leb_le; exact Hb16).
    exact Hlt.
  - intros Ha8 Hbfe.
    replace (128 <=? a) with true in H2 by (symmetry; apply Z.leb_le; exact Ha8).
    replace (b <=? 254) with true in H2 by (symmetry; apply Z.leb_le; exact Hbfe).
    cbn [andb] in H2.
    apply andb_true_iff in H2 as [Hle Hlt]. split; [exact Hle |].
    intros Hb90.
    replace (144 <=? b) with true in Hlt by (symmetry; apply Z.leb_le; exact Hb90).
    exact Hlt.
Qed.

Lemma dequantize_monotone_witness :
  (0x35 <= 0x7F ->
   SFleb (p3109_dequantize 0x34) (p3109_dequantize 0x35) = true
   /\ (0x10 <= 0x35 ->
       SFltb (p3109_dequantize 0x34) (p3109_dequantize 0x35) = true))
  /\ (0x80 <= 0x34 -> 0x35 <= 0xFE ->
      SFleb (p3109_dequantize 0x35) (p3109_dequantize 0x34) = true
      /\ (0x90 <= 0x35 ->
          SFltb (p3109_dequantize 0x35) (p3109_dequantize 0x34) = true)).
Proof.
  apply dequantize_monotone; unfold is_uint8; lia.
Defined.

(** ** The arithmetic of the wrapper *)

Section Wrapper.

(** What a binary operator packs, whatever the accumulation flag. *)
Lemma apply_binop_raw (o : binop) (g : Globals) (a b : P3109Number) :
  is_uint8 (P3109.raw a) -> is_uint8 (P3109.raw b) ->
  P3109.raw (apply_binop o g a b)
  = p3109_quantize
      (float_op o (p3109_dequantize (P3109.raw a))
                  (p3109_dequantize (P3109.raw b))).
Proof.
  intros Ha Hb. destruct g as [flag].
  transitivity (P3109.raw (P3109.compound (float_op o)
                             {| accumulate_in_fp32_ := flag |} a b));
    [destruct o; reflexivity |].
  unfold P3109.compound, P3109.raw in *. cbn [value_ accumulate_in_fp32_].
  destruct flag; [reflexivity |].
  apply requantize, dequantize_op_valid; assumption.
Qed.

Lemma float_op_nan (o : binop) (x y : float) :
  f32.isnan x = true \/ f32.isnan y = true -> float_op o x y = S754_nan.
Proof.
  intros [Hx | Hy]; destruct o, x, y; try discriminate; reflexivity.
Qed.

Lemma dequantize_nan (c : Z) :
  is_uint8 c -> (f32.isnan (p3109_dequantize c) = true <-> c = 0xFF).
Proof.
  intros Hu.
  pose (P := fun c => Bool.eqb (f32.isnan (p3109_dequantize c)) (c =? 0xFF)).
  assert (HP : P c = true)
    by (apply uint8_forallb; [vm_compute; reflexivity | exact Hu]).
  unfold P in HP. apply Bool.eqb_prop in HP. rewrite HP. apply Z.eqb_eq.
Qed.

(** Addition and multiplication of [float]s commute on the values of the
    codes. *)
Lemma table_ops_commute :
  forallb
    (fun x =>
       forallb
         (fun y => float_beq (f32.add x y) (f32.add y x)
                   && float_beq (f32.mul x y) (f32.mul y x))
         dequantize_table)
    dequantize_table = true.
Proof. vm_compute. reflexivity. Qed.

(** On the values of non-reserved codes an operation gives NaN or an
    infinity only when it is a division by a zero. *)
Lemma table_ops_finite :
  forallb
    (fun o =>
       forallb
         (fun x =>
            forallb
              (fun y =>
                 match x, y, o with
                 | (S754_nan | S754_infinity _), _, _ => true
                 | _, (S754_nan | S754_infinity _), _ => true
                 | _, S754_zero _, OpDiv => true
                 | _, _, _ =>
                     match float_op o x y with
                     | S754_nan | S754_infinity _ => false
                     | _ => true
                     end
                 end)
              dequantize_table)
         dequantize_table)
    [OpAdd; OpSub; OpMul; OpDiv] = true.
Proof. vm_compute. reflexivity. Qed.

Lemma In_dequantize_table (c : Z) :
  is_uint8 c -> In (p3109_dequantize c) dequantize_table.
Proof. intros Hc. apply in_map, In_codes, Hc. Qed.

End Wrapper.

Section WrapperClasses.

(** The kind of value a byte has. *)
Lemma dequantize_class (c : Z) :
  is_uint8 c ->
  match p3109_dequantize c with
  | S754_zero s => exponent_of c = 0 /\ is_reserved c = false
  | S754_finite s _ _ => 1 <= exponent_of c /\ is_reserved c = false
  | S754_nan => c = 0xFF
  | S754_infinity s => c = (if s then 0xFE else 0x7F)
  end.
Proof.
  intros Hu.
  pose (P := fun c =>
    match p3109_dequantize c with
    | S754_zero s => (exponent_of c =? 0) && negb (is_reserved c)
    | S754_finite s _ _ => (1 <=? exponent_of c) && negb (is_reserved c)
    | S754_nan => c =? 0xFF
    | S754_infinity s => c =? (if s then 0xFE else 0x7F)
    end).
  assert (HP : P c = true)
    by (apply uint8_forallb; [vm_compute; reflexivity | exact Hu]).
  unfold P in HP. destruct (p3109_dequantize c) as [s | s | | s m e].
  - apply andb_true_iff in HP as [H1 H2]. apply Z.eqb_eq in H1.
    apply negb_true_iff in H2. split; assumption.
  - apply Z.eqb_eq. exact HP.
  - apply Z.eqb_eq. exact HP.
  - apply andb_true_iff in HP as [H1 H2]. apply Z.leb_le in H1.
    apply negb_true_iff in H2. split; assumption.
Qed.

Lemma valid_neg (x : float) : f32.valid (f32.neg x) = f32.valid x.
Proof. destruct x; reflexivity. Qed.

End WrapperClasses.

(** X15: the wrapper only ever produces canonical codes: for operands
    holding any byte, and under either accumulation policy, the result of
    [+ - * /] and of unary [-] is a byte that [p3109_quantize] produces (a
    reserved code, a zero code, or an exponent field from 1 to 6). *)
Theorem operators_return_canonical_codes
    (o : binop) (g : Globals) (a b : P3109Number) :
  is_uint8 (P3109.raw a) -> is_uint8 (P3109.raw b) ->
  canonical_code (P3109.raw (apply_binop o g a b)) = true
  /\ canonical_code (P3109.raw (P3109.neg a)) = true.
Proof.
  intros Ha Hb. split.
  - rewrite apply_binop_raw by assumption.
    apply quantize_canonical, dequantize_op_valid; assumption.
  - unfold P3109.neg, P3109.raw in *. cbn [value_].
    apply quantize_canonical. rewrite valid_neg.
    apply dequantize_valid, Ha.
Qed.

Lemma operators_return_canonical_codes_witness :
  canonical_code
    (P3109.raw (apply_binop OpDiv initial_globals
                  (P3109.of_raw 0x7B) (P3109.of_raw 0x03))) = true
  /\ canonical_code (P3109.raw (P3109.neg (P3109.of_raw 0x7B))) = true.
Proof.
  apply operators_return_canonical_codes; unfold is_uint8; cbn [P3109.raw P3109.of_raw value_]; lia.
Defined.

(** X16: [+] and [*] on the wrapper commute: for operands holding any two
    bytes, and whatever the accumulation policy of either call, swapping
    the operands gives the same code. *)
Theorem add_mul_commute (g g' : Globals) (a b : P3109Number) :
  is_uint8 (P3109.raw a) -> is_uint8 (P3109.raw b) ->
  P3109.raw (P3109.add g a b) = P3109.raw (P3109.add g' b a)
  /\ P3109.raw (P3109.mul g a b) = P3109.raw (P3109.mul g' b a).
Proof.
  intros Ha Hb.
  pose proof table_ops_commute as Ht. rewrite forallb_forall in Ht.
  specialize (Ht _ (In_dequantize_table _ Ha)). rewrite forallb_forall in Ht.
  specialize (Ht _ (In_dequantize_table _ Hb)).
  apply andb_true_iff in Ht as [Hadd Hmul].
  apply float_beq_eq in Hadd. apply float_beq_eq in Hmul.
  change (P3109.add g a b) with (apply_binop OpAdd g a b).
  change (P3109.add g' b a) with (apply_binop OpAdd g' b a).
  change (P3109.mul g a b) with (apply_binop OpMul g a b).
  change (P3109.mul g' b a) with (apply_binop OpMul g' b a).
  split.
  - rewrite (apply_binop_raw OpAdd g a b Ha Hb),
      (apply_binop_raw OpAdd g' b a Hb Ha). cbn [float_op].
    rewrite Hadd. reflexivity.
  - rewrite (apply_binop_raw OpMul g a b Ha Hb),
      (apply_binop_raw OpMul g' b a Hb Ha). cbn [float_op].
    rewrite Hmul. reflexivity.
Qed.

Lemma add_mul_commute_witness :
  P3109.raw (P3109.add initial_globals (P3109.of_raw 0x35) (P3109.of_raw 0xC1))
  = P3109.raw (P3109.add (set_accumulate_fp32 false initial_globals)
                 (P3109.of_raw 0xC1) (P3109.of_raw 0x35))
  /\ P3109.raw (P3109.mul initial_globals
                  (P3109.of_raw 0x35) (P3109.of_raw 0xC1))
     = P3109.raw (P3109.mul (set_accumulate_fp32 false initial_globals)
                    (P3109.of_raw 0xC1) (P3109.of_raw 0x35)).
Proof.
  apply add_mul_commute; unfold is_uint8; cbn [P3109.raw P3109.of_raw value_]; lia.
Defined.

(** X17: NaN and division by zero are not guarded.  An operator with a
    NaN operand ([0xFF]) returns [0xFF]; dividing a value that is not
    reserved by a zero (exponent field 0) returns [0xFF] when the dividend
    is a zero too, and otherwise the infinity code whose sign is the
    exclusive or of the two sign bits. *)
Theorem nan_and_division_by_zero
    (o : binop) (g : Globals) (a b : P3109Number) :
  is_uint8 (P3109.raw a) -> is_uint8 (P3109.raw b) ->
  (P3109.raw a = 0xFF \/ P3109.raw b = 0xFF ->
   P3109.raw (apply_binop o g a b) = 0xFF)
  /\ (is_reserved (P3109.raw a) = false -> exponent_of (P3109.raw b) = 0 ->
      P3109.raw (P3109.div g a b)
      = if exponent_of (P3109.raw a) =? 0 then 0xFF
        else if xorb (Z.testbit (P3109.raw a) 7) (Z.testbit (P3109.raw b) 7)
             then 0xFE else 0x7F).
Proof.
  intros Ha Hb. split.
  - intros Hnan. rewrite apply_binop_raw by assumption.
    rewrite float_op_nan; [reflexivity |].
    destruct Hnan as [H | H]; [left | right];
      apply dequantize_nan; assumption.
  - intros Hra Hzb.
    change (P3109.div g a b) with (apply_binop OpDiv g a b).
    rewrite (apply_binop_raw OpDiv g a b Ha Hb). cbn [float_op].
    pose (P := fun p q : Z * float =>
      if negb (is_reserved (fst p)) && (exponent_of (fst q) =? 0) then
        p3109_quantize (f32.div (snd p) (snd q))
        =? (if exponent_of (fst p) =? 0 then 0xFF
            else if xorb (Z.testbit (fst p) 7) (Z.testbit (fst q) 7)
                 then 0xFE else 0x7F)
      else true).
    assert (HP : P (P3109.raw a, p3109_dequantize (P3109.raw a))
                   (P3109.raw b, p3109_dequantize (P3109.raw b)) = true)
      by (apply code_pairs_forallb; [vm_compute; reflexivity | assumption ..]).
    unfold P in HP. cbn [fst snd] in HP.
    rewrite Hra, Hzb in HP. cbn [negb andb Z.eqb] in HP.
    apply Z.eqb_eq. exact HP.
Qed.

Lemma nan_and_division_by_zero_witness :
  (P3109.raw (P3109.of_raw 0xB4) = 0xFF \/ P3109.raw (P3109.of_raw 0x80) = 0xFF ->
   P3109.raw (apply_binop OpDiv initial_globals
                (P3109.of_raw 0xB4) (P3109.of_raw 0x80)) = 0xFF)
  /\ P3109.raw (P3109.div initial_globals
                  (P3109.of_raw 0xB4) (P3109.of_raw 0x80)) = 0x7F.
Proof.
  destruct (nan_and_division_by_zero OpDiv initial_globals
              (P3109.of_raw 0xB4) (P3109.of_raw 0x80)) as [Hn Hd];
    [unfold is_uint8; cbn [P3109.raw P3109.of_raw value_]; lia ..|].
  split; [exact Hn |]. apply Hd; reflexivity.
Defined.

Section Saturation.

(** A [float] that is a zero or finite is packed as [0x6F] or [0xEF]
    exactly when its magnitude is not below 15.25. *)
Lemma quantize_saturates (r : float) :
  f32.valid r = true -> f32.isnan r = false -> f32.isinf r = false ->
  (f32.ltb (f32.fabs r) (S754_finite false 15990784 (-20)) = false
   <-> p3109_quantize r = (if f32.signbit r then 0xEF else 0x6F)).
Proof.
  intros Hv Hn Hi. destruct r as [s | s | | s m e]; try discriminate.
  - destruct s; split; intros H; vm_compute in H; discriminate H.
  - unfold f32.valid, valid_binary in Hv.
    cbn [f32.fabs SFabs f32.signbit]. unfold f32.ltb.
    rewrite <- not_true_iff_false, ltb_finite_nonneg.
    rewrite (quantize_finite_arith s m e Hv). cbv zeta.
    destruct (finite_code_facts m e Hv)
      as (d & q & <- & <- & Hd & He & Hnormal).
    clear Hv.
    destruct (Z.eq_dec e (-149)) as [-> | Hne].
    + clear Hnormal. code_cases; destruct s; lia.
    + destruct (Hnormal ltac:(lia)) as (-> & Hm & Hq). clear Hnormal.
      code_cases; destruct s; lia.
Qed.

End Saturation.

(** X18: the arithmetic saturates.  On operands that are not reserved an
    operator returns a reserved code (NaN or an infinity) only when it is
    a division by a zero.  In every other case the [float] result of the
    operation is a zero or finite, and the operator returns [0x6F] or
    [0xEF], by the sign of that result, exactly when its magnitude is not
    below [15.25 = 15990784 * 2^-20]: sums, differences, products and
    quotients that leave the range come back as the largest code the
    quantizer gives a finite value, never as an infinity. *)
Theorem finite_operands_stay_finite
    (o : binop) (g : Globals) (a b : P3109Number) :
  is_uint8 (P3109.raw a) -> is_uint8 (P3109.raw b) ->
  is_reserved (P3109.raw a) = false -> is_reserved (P3109.raw b) = false ->
  (is_reserved (P3109.raw (apply_binop o g a b)) = true ->
   o = OpDiv /\ exponent_of (P3109.raw b) = 0)
  /\ (~ (o = OpDiv /\ exponent_of (P3109.raw b) = 0) ->
      let r := float_op o (p3109_dequantize (P3109.raw a))
                          (p3109_dequantize (P3109.raw b)) in
      f32.isnan r = false /\ f32.isinf r = false
      /\ (f32.ltb (f32.fabs r) (S754_finite false 15990784 (-20)) = false
          <-> P3109.raw (apply_binop o g a b)
              = (if f32.signbit r then 0xEF else 0x6F))).
Proof.
  intros Ha Hb Hra Hrb.
  rewrite apply_binop_raw by assumption.
  pose proof (dequantize_op_valid o _ _ Ha Hb) as Hvalid.
  pose proof table_ops_finite as Ht. rewrite forallb_forall in Ht.
  assert (Ho : In o [OpAdd; OpSub; OpMul; OpDiv])
    by (destruct o; simpl; tauto).
  specialize (Ht o Ho). rewrite forallb_forall in Ht.
  specialize (Ht _ (In_dequantize_table _ Ha)). rewrite forallb_forall in Ht.
  specialize (Ht _ (In_dequantize_table _ Hb)).
  pose proof (dequantize_class _ Ha) as Hca.
  pose proof (dequantize_class _ Hb) as Hcb.
  assert (Hclass :
            (o = OpDiv /\ exponent_of (P3109.raw b) = 0)
            \/ match float_op o (p3109_dequantize (P3109.raw a))
                                (p3109_dequantize (P3109.raw b)) with
               | S754_nan | S754_infinity _ => false
               | _ => true
               end = true).
  { destruct (p3109_dequantize (P3109.raw a)) as [sa | sa | | sa ma ea];
      try (rewrite Hca in Hra; destruct sa; discriminate Hra);
      try (rewrite Hca in Hra; discriminate Hra);
      destruct (p3109_dequantize (P3109.raw b)) as [sb | sb | | sb mb eb];
      try (rewrite Hcb in Hrb; destruct sb; discriminate Hrb);
      try (rewrite Hcb in Hrb; discriminate Hrb);
      destruct o;
      first [ right; exact Ht
            | left; split; [reflexivity | apply Hcb] ]. }
  set (r := float_op o (p3109_dequantize (P3109.raw a))
                       (p3109_dequantize (P3109.raw b))) in *.
  assert (Hfin : match r with S754_nan | S754_infinity _ => false | _ => true end
                 = true ->
                 f32.isnan r = false /\ f32.isinf r = false)
    by (destruct r; intros Hr; try discriminate Hr; split; reflexivity).
  split.
  - intros Hres. destruct Hclass as [Hdiv | Hr]; [exact Hdiv |].
    destruct (Hfin Hr) as [Hn Hi].
    rewrite (quantize_not_reserved r Hvalid Hn Hi) in Hres.
    discriminate Hres.
  - intros Hnot. destruct Hclass as [Hdiv | Hr]; [contradiction |].
    destruct (Hfin Hr) as [Hn Hi].
    split; [exact Hn |]. split; [exact Hi |].
    apply quantize_saturates; assumption.
Qed.

Lemma finite_operands_stay_finite_witness :
  (is_reserved
     (P3109.raw (apply_binop OpAdd initial_globals
                   (P3109.of_raw 0x6F) (P3109.of_raw 0x6E))) = true ->
   OpAdd = OpDiv /\ exponent_of (P3109.raw (P3109.of_raw 0x6E)) = 0)
  /\ P3109.raw (apply_binop OpAdd initial_globals
                  (P3109.of_raw 0x6F) (P3109.of_raw 0x6E)) = 0x6F.
Proof.
  destruct (finite_operands_stay_finite OpAdd initial_globals
              (P3109.of_raw 0x6F) (P3109.of_raw 0x6E)) as [H1 H2].
  - unfold is_uint8. cbn [P3109.raw P3109.of_raw value_]. lia.
  - unfold is_uint8. cbn [P3109.raw P3109.of_raw value_]. lia.
  - reflexivity.
  - reflexivity.
  - split; [exact H1 |].
    assert (Hnot : ~ (OpAdd = OpDiv
                      /\ exponent_of (P3109.raw (P3109.of_raw 0x6E)) = 0))
      by (intros [Hd _]; discriminate Hd).
    destruct (H2 Hnot) as (_ & _ & Hsat).
    apply (proj1 Hsat). vm_compute. reflexivity.
Defined.

(** ** Conversions of the wrapper *)

Section Conversions.

(** The trip of a code's value through [double] is exact. *)
Lemma double_exact (c : Z) :
  is_uint8 c ->
  f64.to_float (f64.of_float (p3109_dequantize c)) = p3109_dequantize c
  /\ metrics.isnan (f64.of_float (p3109_dequantize c)) = (c =? 0xFF)
  /\ metrics.isinf (f64.of_float (p3109_dequantize c))
     = ((c =? 0x7F) || (c =? 0xFE)).
Proof.
  intros Hu.
  pose (P := fun c =>
    let d := f64.of_float (p3109_dequantize c) in
    float_beq (f64.to_float d) (p3109_dequantize c)
    && Bool.eqb (metrics.isnan d) (c =? 0xFF)
    && Bool.eqb (metrics.isinf d) ((c =? 0x7F) || (c =? 0xFE))).
  assert (HP : P c = true)
    by (apply uint8_forallb; [vm_compute; reflexivity | exact Hu]).
  unfold P in HP. cbv zeta in HP.
  apply andb_true_iff in HP as [HP H3]. apply andb_true_iff in HP as [H1 H2].
  split; [apply float_beq_eq; exact H1 |].
  split; apply Bool.eqb_prop; assumption.
Qed.

Lemma filter_length_iff {A : Type} (P Q : A -> Prop)
    `{forall x, Decision (P x)} `{forall x, Decision (Q x)} (l : list A) :
  Forall (fun x => P x <-> Q x) l ->
  length (filter P l) = length (filter Q l).
Proof.
  induction 1 as [| x l Hx Hl IH]; [reflexivity |].
  rewrite !filter_cons.
  destruct (decide (P x)), (decide (Q x)); cbn [length]; tauto || lia.
Qed.

End Conversions.

(** X19: a value converts to [double] without loss, and a vector of
    values with canonical codes survives [to_double_vector] followed by
    [cast_vector<P3109Number>] unchanged. *)
Theorem double_round_trip (g : Globals) (xs : list P3109Number) :
  Forall (fun x => is_uint8 (P3109.raw x)) xs ->
  map f64.to_float (to_double_vector (H := p3109_numeric g) xs)
  = map P3109.to_float xs
  /\ (Forall (fun x => canonical_code (P3109.raw x) = true) xs ->
      cast_vector (H := p3109_numeric g)
        (to_double_vector (H := p3109_numeric g) xs) = xs).
Proof.
  intros Hu. unfold cast_vector, to_double_vector.
  cbn [num_of_double num_to_double p3109_numeric]. rewrite !map_map. split.
  - apply map_ext_Forall. eapply Forall_impl; [exact Hu |].
    intros x Hx. cbv beta in Hx |- *. unfold P3109.to_double, P3109.to_float.
    apply double_exact, Hx.
  - intros Hc. rewrite <- (map_id xs) at 2.
    apply map_ext_Forall. rewrite Forall_forall in Hu, Hc |- *.
    intros [c] Hin. specialize (Hu _ Hin). specialize (Hc _ Hin).
    unfold P3109.of_double, P3109.to_double, P3109.raw in *.
    cbn [value_] in *. f_equal.
    rewrite (proj1 (double_exact c Hu)). apply roundtrip_canonical, Hc.
Qed.

Lemma double_round_trip_witness :
  map f64.to_float
    (to_double_vector (H := p3109_numeric initial_globals)
       [P3109.of_raw 0x35; P3109.of_raw 0xFE])
  = map P3109.to_float [P3109.of_raw 0x35; P3109.of_raw 0xFE]
  /\ (Forall (fun x => canonical_code (P3109.raw x) = true)
        [P3109.of_raw 0x35; P3109.of_raw 0xFE] ->
      cast_vector (H := p3109_numeric initial_globals)
        (to_double_vector (H := p3109_numeric initial_globals)
           [P3109.of_raw 0x35; P3109.of_raw 0xFE])
      = [P3109.of_raw 0x35; P3109.of_raw 0xFE]).
Proof.
  apply double_round_trip.
  repeat constructor; unfold is_uint8; cbn [P3109.raw P3109.of_raw value_]; lia.
Defined.

(** X20: on a vector of wrapper values [count_nan] is the number of
    elements holding [0xFF], and [count_inf] the number holding [0x7F] or
    [0xFE], each converted to [int]: the number itself while it is below
    [2^31], as for every vector shorter than that, and the number less
    [2^32] from [2^31] up to [2^32], where the conversion wraps. *)
Theorem count_reserved_codes (g : Globals) (data : list P3109Number) :
  Forall (fun x => is_uint8 (P3109.raw x)) data ->
  let nans := Z.of_nat (length (filter (fun x => P3109.raw x = 0xFF) data)) in
  let infs :=
    Z.of_nat
      (length (filter (fun x => P3109.raw x = 0x7F \/ P3109.raw x = 0xFE)
                      data)) in
  let count_nan := metrics.count_nan (H := p3109_numeric g) data in
  let count_inf := metrics.count_inf (H := p3109_numeric g) data in
  count_nan = metrics.static_cast_int nans
  /\ count_inf = metrics.static_cast_int infs
  /\ (nans < 2 ^ 31 -> count_nan = nans)
  /\ (infs < 2 ^ 31 -> count_inf = infs)
  /\ (2 ^ 31 <= nans < 2 ^ 32 -> count_nan = nans - 2 ^ 32)
  /\ (2 ^ 31 <= infs < 2 ^ 32 -> count_inf = infs - 2 ^ 32)
  /\ (Z.of_nat (length data) < 2 ^ 31 ->
      count_nan = nans /\ count_inf = infs).
Proof.
  intros Hu nans infs count_nan count_inf.
  assert (Hnan : count_nan = metrics.static_cast_int nans).
  { unfold count_nan, nans, metrics.count_nan.
    cbn [num_to_double p3109_numeric]. do 2 f_equal.
    apply filter_length_iff. eapply Forall_impl; [exact Hu |].
    intros x Hx. cbv beta in Hx |- *. unfold P3109.to_double.
    destruct (double_exact _ Hx) as (_ & Hn & _).
    unfold P3109.raw in *. rewrite Hn. apply Z.eqb_eq. }
  assert (Hinf : count_inf = metrics.static_cast_int infs).
  { unfold count_inf, infs, metrics.count_inf.
    cbn [num_to_double p3109_numeric]. do 2 f_equal.
    apply filter_length_iff. eapply Forall_impl; [exact Hu |].
    intros x Hx. cbv beta in Hx |- *. unfold P3109.to_double.
    destruct (double_exact _ Hx) as (_ & _ & Hi).
    unfold P3109.raw in *. rewrite Hi, orb_true_iff, !Z.eqb_eq. tauto. }
  assert (Hsmall : forall n, 0 <= n < 2 ^ 31 -> metrics.static_cast_int n = n).
  { intros n Hn. unfold metrics.static_cast_int.
    rewrite Z.mod_small; lia. }
  assert (Hwrap : forall n, 2 ^ 31 <= n < 2 ^ 32 ->
            metrics.static_cast_int n = n - 2 ^ 32).
  { intros n Hn. unfold metrics.static_cast_int.
    replace (n + 2 ^ 31) with (n - 2 ^ 31 + 1 * 2 ^ 32) by lia.
    rewrite Z.mod_add by lia. rewrite Z.mod_small; lia. }
  assert (Hn0 : 0 <= nans) by (unfold nans; lia).
  assert (Hi0 : 0 <= infs) by (unfold infs; lia).
  assert (Hnl : nans <= Z.of_nat (length data))
    by (unfold nans; apply inj_le, length_filter).
  assert (Hil : infs <= Z.of_nat (length data))
    by (unfold infs; apply inj_le, length_filter).
  split; [exact Hnan |]. split; [exact Hinf |].
  split; [intros Hlt; rewrite Hnan; apply Hsmall; lia |].
  split; [intros Hlt; rewrite Hinf; apply Hsmall; lia |].
  split; [intros Hge; rewrite Hnan; apply Hwrap; exact Hge |].
  split; [intros Hge; rewrite Hinf; apply Hwrap; exact Hge |].
  intros Hlen. split.
  - rewrite Hnan. apply Hsmall. lia.
  - rewrite Hinf. apply Hsmall. lia.
Qed.

Lemma count_reserved_codes_witness :
  metrics.count_nan (H := p3109_numeric initial_globals)
    [P3109.of_raw 0xFF; P3109.of_raw 0x35; P3109.of_raw 0x7F;
     P3109.of_raw 0xFE; P3109.of_raw 0xFF] = 2
  /\ metrics.count_inf (H := p3109_numeric initial_globals)
       [P3109.of_raw 0xFF; P3109.of_raw 0x35; P3109.of_raw 0x7F;
        P3109.of_raw 0xFE; P3109.of_raw 0xFF] = 2.
Proof.
  apply (proj2 (proj2 (proj2 (proj2 (proj2 (proj2
           (count_reserved_codes initial_globals
              [P3109.of_raw 0xFF; P3109.of_raw 0x35; P3109.of_raw 0x7F;
               P3109.of_raw 0xFE; P3109.of_raw 0xFF]
              ltac:(repeat constructor; unfold is_uint8;
                    cbn [P3109.raw P3109.of_raw value_]; lia)))))))).
  cbn [length]. lia.
Defined.

(** ** The registry, both ways *)

(** X21: the registry is consistent: the canonical name of every
    precision is looked up to that precision, so [precision_to_string] is
    injective, and [all_precisions] lists each of the five precisions
    exactly once. *)
Theorem precision_names_round_trip (p : Precision) :
  precision_from_string (precision_to_string p) = Returns p
  /\ (forall q, precision_to_string p = precision_to_string q -> p = q)
  /\ In p all_precisions
  /\ NoDup all_precisions
  /\ length all_precisions = 5%nat.
Proof.
  split; [destruct p; vm_compute; reflexivity |].
  split; [intros q; destruct p, q; simpl; intros Heq;
          first [reflexivity | discriminate Heq] |].
  split; [destruct p; simpl; tauto |].
  split; [| reflexivity].
  unfold all_precisions. apply NoDup_ListNoDup.
  repeat constructor; simpl; intuition discriminate.
Qed.

(** ** Signs in IEEE arithmetic *)

Section Signs.

Variables (p em : Z).

Lemma shr_1_nonneg (r : shr_record) : 0 <= shr_m r -> 0 <= shr_m (shr_1 r).
Proof.
  destruct r as [m rb sb]. cbn [shr_m]. intros Hm.
  destruct m as [| [q | q |] | q]; cbn; lia.
Qed.

Lemma shr_nonneg (r : shr_record) (e n : Z) :
  0 <= shr_m r -> 0 <= shr_m (fst (shr r e n)).
Proof.
  intros Hm. unfold shr. destruct n as [| k | k]; cbn [fst]; try exact Hm.
  rewrite iter_pos_eq. apply Pos.iter_invariant; [| exact Hm].
  intros x Hx. apply shr_1_nonneg, Hx.
Qed.

Lemma shr_fexp_nonneg (m e : Z) (l : location) :
  0 <= m -> 0 <= shr_m (fst (shr_fexp p em m e l)).
Proof.
  intros Hm. unfold shr_fexp. apply shr_nonneg.
  destruct l as [| []]; exact Hm.
Qed.

Lemma round_nearest_even_nonneg (m : Z) (l : location) :
  0 <= m -> 0 <= round_nearest_even m l.
Proof.
  intros Hm. unfold round_nearest_even.
  destruct l as [| []]; try destruct (Z.even m); lia.
Qed.

(** Rounding a non-negative mantissa gives a zero, a finite value or an
    infinity of the given sign, never NaN. *)
Lemma round_aux_class (sx : bool) (mx ex : Z) (lx : location) :
  0 <= mx ->
  match binary_round_aux p em sx mx ex lx with
  | S754_zero s | S754_infinity s | S754_finite s _ _ => s = sx
  | S754_nan => False
  end.
Proof.
  intros Hm. unfold binary_round_aux.
  pose proof (shr_fexp_nonneg mx ex lx Hm) as H1.
  destruct (shr_fexp p em mx ex lx) as [mrs' e']. cbn [fst] in H1.
  pose proof (shr_fexp_nonneg
                (round_nearest_even (shr_m mrs') (loc_of_shr_record mrs'))
                e' loc_Exact
                (round_nearest_even_nonneg _ _ H1)) as H2.
  destruct (shr_fexp p em _ e' loc_Exact) as [mrs'' e'']. cbn [fst] in H2.
  destruct (shr_m mrs'') as [| m | m]; [reflexivity | | lia].
  destruct (e'' <=? em - p); reflexivity.
Qed.

Lemma round_class (sx : bool) (mx : positive) (ex : Z) :
  match binary_round p em sx mx ex with
  | S754_zero s | S754_infinity s | S754_finite s _ _ => s = sx
  | S754_nan => False
  end.
Proof.
  unfold binary_round. destruct (shl_align mx ex _) as [mz ez].
  apply round_aux_class. lia.
Qed.

(** The square of a finite value is not negative and not NaN. *)
Lemma square_class (x : spec_float) :
  is_finite_value x = true ->
  match SFmul p em x x with
  | S754_zero _ | S754_finite false _ _ | S754_infinity false => True
  | _ => False
  end.
Proof.
  destruct x as [s | s | | s m e]; try discriminate; intros _.
  - exact I.
  - unfold SFmul.
    pose proof (round_aux_class (xorb s s) (Z.pos (m * m)) (e + e) loc_Exact
                  ltac:(lia)) as Hc.
    rewrite xorb_nilpotent in *.
    destruct (binary_round_aux p em false (Z.pos (m * m)) (e + e) loc_Exact)
      as [s' | s' | | s' m' e']; try contradiction; subst; exact I.
Qed.

(** So is the sum of two such values. *)
Lemma add_class (a b : spec_float) :
  match a with
  | S754_zero _ | S754_finite false _ _ | S754_infinity false => True
  | _ => False
  end ->
  match b with
  | S754_zero _ | S754_finite false _ _ | S754_infinity false => True
  | _ => False
  end ->
  match SFadd p em a b with
  | S754_zero _ | S754_finite false _ _ | S754_infinity false => True
  | _ => False
  end.
Proof.
  destruct a as [sa | [|] | | [|] ma ea]; try contradiction; intros _;
    destruct b as [sb | [|] | | [|] mb eb]; try contradiction; intros _;
    try exact I.
  - destruct sa, sb; exact I.
  - unfold SFadd, cond_Zopp, binary_normalize. rewrite <- Pos2Z.inj_add.
    pose proof (round_class false
                  (fst (shl_align ma ea (Z.min ea eb))
                   + fst (shl_align mb eb (Z.min ea eb)))
                  (Z.min ea eb)) as Hc.
    destruct (binary_round p em false _ (Z.min ea eb))
      as [s' | s' | | s' m' e']; try contradiction; subst; exact I.
Qed.

(** And the square root of one. *)
Lemma sqrt_class (x : spec_float) :
  match x with
  | S754_zero _ | S754_finite false _ _ | S754_infinity false => True
  | _ => False
  end ->
  match SFsqrt p em x with
  | S754_zero _ | S754_finite false _ _ | S754_infinity false => True
  | _ => False
  end.
Proof.
  destruct x as [s | [|] | | [|] m e]; try contradiction; intros _;
    try exact I.
  unfold SFsqrt, SFsqrt_core_binary.
  set (m' := match e - 2 * _ with
             | 0 => Z.pos m
             | Z.pos _ => Z.shiftl (Z.pos m) _
             | Z.neg _ => 0
             end).
  assert (Hm' : 0 <= m').
  { unfold m'. destruct (e - 2 * _); try lia. apply Z.shiftl_nonneg. lia. }
  pose proof (Z.sqrtrem_spec m' Hm') as Hs.
  destruct (Z.sqrtrem m') as [q r].
  pose proof (round_aux_class false q
                (Z.min (fexp p em (Z.div2 (Zdigits2 (Z.pos m) + e + 1)))
                       (Z.div2 e))
                (if r =? 0 then loc_Exact
                 else loc_Inexact (if r <=? q then Lt else Gt))
                ltac:(lia)) as Hc.
  destruct (binary_round_aux p em false q _ _) as [s' | s' | | s' m'' e''];
    try contradiction; subst; exact I.
Qed.

(** A finite value minus itself is [+0.0]. *)
Lemma sub_diag (x : spec_float) :
  is_finite_value x = true -> SFsub p em x x = S754_zero false.
Proof.
  destruct x as [[|] | s | | s m e]; try discriminate; intros _;
    try reflexivity.
  unfold SFsub. rewrite Z.sub_diag. reflexivity.
Qed.

End Signs.

(** ** The error metric *)

Section Metrics.

Lemma at_finite (v : list double) (i : nat) :
  Forall (fun x => is_finite_value x = true) v ->
  is_finite_value (at_ v i) = true.
Proof.
  intros Hv. unfold at_. destruct (v !! i) as [x |] eqn:Hx; [| reflexivity].
  rewrite List.Forall_forall in Hv. apply Hv.
  apply list_elem_of_In, list_elem_of_lookup. exists i. exact Hx.
Qed.

(** The loop that fills [diff]. *)
Lemma diff_loop (truth approx : list double) :
  fold_left
    (fun diff i => <[i := f64.sub (at_ truth i) (at_ approx i)]> diff)
    (seq 0 (length truth)) (replicate (length truth) f64.zero)
  = map (fun i => f64.sub (at_ truth i) (at_ approx i))
        (seq 0 (length truth)).
Proof.
  rewrite (fold_insert_seq
             (fun _ i => f64.sub (at_ truth i) (at_ approx i))
             (fun i => f64.sub (at_ truth i) (at_ approx i)))
    by (try reflexivity; rewrite length_replicate; lia).
  rewrite drop_ge by (rewrite length_replicate; lia).
  apply app_nil_r.
Qed.

Lemma norm_of_zeros (v : list double) :
  Forall (fun x => x = S754_zero false) v ->
  metrics.vector_norm v = S754_zero false.
Proof.
  intros Hv. unfold metrics.vector_norm.
  assert (Hsum : fold_left (fun accum x => f64.add accum (f64.mul x x)) v
                           f64.zero = S754_zero false).
  { induction Hv as [| x v -> _ IH]; [reflexivity | exact IH]. }
  rewrite Hsum. reflexivity.
Qed.

Lemma norm_class (v : list double) :
  Forall (fun x => is_finite_value x = true) v ->
  match metrics.vector_norm v with
  | S754_zero _ | S754_finite false _ _ | S754_infinity false => True
  | _ => False
  end.
Proof.
  intros Hv. unfold metrics.vector_norm. apply sqrt_class.
  assert (Hacc : forall acc,
            match acc with
            | S754_zero _ | S754_finite false _ _ | S754_infinity false => True
            | _ => False
            end ->
            match fold_left (fun accum x => f64.add accum (f64.mul x x)) v acc
            with
            | S754_zero _ | S754_finite false _ _ | S754_infinity false => True
            | _ => False
            end).
  { induction Hv as [| x v Hx _ IH]; intros acc Hacc; [exact Hacc |].
    cbn [fold_left]. apply IH. apply add_class; [exact Hacc |].
    apply square_class, Hx. }
  apply Hacc. exact I.
Qed.

End Metrics.

(** X22: [relative_error] throws exactly when the two vectors differ in
    size; and the error of a vector of finite values against itself is
    exactly [+0.0] for every positive [eps], also when the vector is zero
    or its norm overflows to infinity. *)
Theorem relative_error_exact (truth approx : list double) (eps : double) :
  (length truth <> length approx
   <-> metrics.relative_error truth approx eps
       = Throws "Vector size mismatch in relative_error")
  /\ (Forall (fun x => is_finite_value x = true) truth ->
      f64.ltb f64.zero eps = true ->
      metrics.relative_error truth truth eps = Returns (S754_zero false)).
Proof.
  split.
  - unfold metrics.relative_error.
    destruct (Nat.eqb_spec (length truth) (length approx)) as [Heq | Hne];
      cbn [negb]; split; intros H;
      first [reflexivity | contradiction | discriminate H | exact Hne].
  - intros Hfin Heps. unfold metrics.relative_error.
    rewrite Nat.eqb_refl. cbn [negb]. rewrite diff_loop.
    rewrite norm_of_zeros.
    2:{ apply List.Forall_forall. intros x Hx. apply in_map_iff in Hx as (i & <- & _).
        apply sub_diag, at_finite, Hfin. }
    f_equal. pose proof (norm_class truth Hfin) as HN.
    unfold metrics.max, f64.ltb, f64.div in *.
    destruct (SFltb (metrics.vector_norm truth) eps) eqn:Hlt.
    + destruct eps as [s | [|] | | [|] m e]; try discriminate Heps;
        reflexivity.
    + destruct (metrics.vector_norm truth) as [s | [|] | | [|] m e];
        try contradiction; try reflexivity.
      destruct eps as [se | [|] | | [|] me ee]; discriminate.
Qed.

Lemma relative_error_exact_witness :
  (length [f64.lit 3 0; f64.zero] <> length [f64.lit 3 0]
   <-> metrics.relative_error [f64.lit 3 0; f64.zero] [f64.lit 3 0]
         (f64.lit 1 (-40))
       = Throws "Vector size mismatch in relative_error")
  /\ metrics.relative_error [f64.lit 3 0; f64.zero] [f64.lit 3 0; f64.zero]
       (f64.lit 1 (-40))
     = Returns (S754_zero false).
Proof.
  destruct (relative_error_exact [f64.lit 3 0; f64.zero] [f64.lit 3 0]
              (f64.lit 1 (-40))) as [Hthrow _].
  destruct (relative_error_exact [f64.lit 3 0; f64.zero]
              [f64.lit 3 0; f64.zero] (f64.lit 1 (-40))) as [_ Hzero].
  split; [exact Hthrow |].
  apply Hzero; [repeat constructor | reflexivity].
Defined.

(** ** The CSV writer *)

Section Csv.

Lemma unquote_quote_chars (value : string) :
  csv.unquote_chars (csv.quote_chars value) = value.
Proof.
  induction value as [| c rest IH]; [reflexivity |].
  cbn [csv.quote_chars]. destruct (c =? csv.dquote)%char eqn:Hc.
  - apply Ascii.eqb_eq in Hc. subst c.
    cbn [csv.unquote_chars]. rewrite Ascii.eqb_refl, IH. reflexivity.
  - cbn [csv.unquote_chars]. rewrite Hc, IH. reflexivity.
Qed.

Lemma append_cons (x : ascii) (a b : string) :
  (String x a ++ b)%string = String x (a ++ b)%string.
Proof. reflexivity. Qed.

Lemma append_nil_r (a : string) : (a ++ "")%string = a.
Proof.
  induction a as [| x a IH]; [reflexivity |].
  rewrite append_cons, IH. reflexivity.
Qed.

Lemma string_append_assoc (a b c : string) :
  ((a ++ b) ++ c)%string = (a ++ (b ++ c))%string.
Proof.
  induction a as [| x a IH]; [reflexivity |].
  rewrite !append_cons, IH. reflexivity.
Qed.

End Csv.

(** X23: [escape_csv_field] loses nothing: a field with no comma, quote,
    line feed or carriage return is written as it is, any other between
    quotes, and two different fields are never written the same. *)
Theorem escape_csv_field_injective (value : string) :
  (csv.needs_quotes value = false -> csv.escape_csv_field value = value)
  /\ (csv.needs_quotes value = true ->
      csv.escape_csv_field value = String csv.dquote (csv.quote_chars value))
  /\ (forall value',
        csv.escape_csv_field value = csv.escape_csv_field value' ->
        value = value').
Proof.
  split; [intros Hn; unfold csv.escape_csv_field; rewrite Hn; reflexivity |].
  split; [intros Hn; unfold csv.escape_csv_field; rewrite Hn; reflexivity |].
  intros value'. unfold csv.escape_csv_field.
  destruct (csv.needs_quotes value) eqn:Hv,
           (csv.needs_quotes value') eqn:Hv'; cbn [negb]; intros Heq.
  - injection Heq as Heq.
    rewrite <- (unquote_quote_chars value), Heq. apply unquote_quote_chars.
  - subst value'. cbn [csv.needs_quotes] in Hv'.
    apply orb_false_iff in Hv' as [Hs _]. discriminate Hs.
  - subst value. cbn [csv.needs_quotes] in Hv.
    apply orb_false_iff in Hv as [Hs _]. discriminate Hs.
  - exact Heq.
Qed.

Lemma escape_csv_field_injective_witness :
  csv.escape_csv_field "iters" = "iters"%string
  /\ csv.escape_csv_field "a,b" = String csv.dquote (csv.quote_chars "a,b").
Proof.
  destruct (escape_csv_field_injective "iters") as [Hplain _].
  destruct (escape_csv_field_injective "a,b") as (_ & Hquoted & _).
  split; [apply Hplain | apply Hquoted]; reflexivity.
Defined.

(** X24: the writer keeps the header first and single.  [write_row] on a
    writer whose header is not written throws and writes nothing; once the
    header is written, no sequence of calls throws, later [write_header]
    calls write nothing, and the stream grows by exactly the lines of the
    rows, in order. *)
Theorem csv_writer_protocol (calls : list csv_call) (w : csv.CsvWriter) :
  (csv.header_written_ w = false ->
   forall values,
     csv_run (WriteRow values :: calls) w
     = Throws "CSV header must be written before rows")
  /\ (csv.header_written_ w = true ->
      csv_run calls w
      = Returns {| csv.stream_ := (csv.stream_ w ++ csv_row_lines calls)%string;
                   csv.header_written_ := true |})
  /\ (csv.header_written_ w = false ->
      forall columns,
        csv_run (WriteHeader columns :: calls) w
        = Returns
            {| csv.stream_ :=
                 (csv.stream_ w ++ csv.join_fields columns
                  ++ String csv.lf EmptyString ++ csv_row_lines calls)%string;
               csv.header_written_ := true |}).
Proof.
  assert (Hwritten : forall calls w,
            csv.header_written_ w = true ->
            csv_run calls w
            = Returns {| csv.stream_ :=
                           (csv.stream_ w ++ csv_row_lines calls)%string;
                         csv.header_written_ := true |}).
  { clear. induction calls as [| [columns | values] calls IH];
      intros [stream written] Hw; cbn [csv.header_written_] in Hw; subst.
    - cbn [csv_run csv_row_lines csv.stream_].
      rewrite append_nil_r. reflexivity.
    - cbn [csv_run csv_row_lines]. unfold csv.write_header.
      cbn [csv.header_written_]. apply IH. reflexivity.
    - cbn [csv_run csv_row_lines]. unfold csv.write_row.
      cbn [csv.header_written_ negb csv.stream_].
      rewrite IH by reflexivity. cbn [csv.stream_].
      rewrite !string_append_assoc. reflexivity. }
  split; [| split].
  - intros Hw values. cbn [csv_run]. unfold csv.write_row. rewrite Hw.
    reflexivity.
  - apply Hwritten.
  - intros Hw columns. cbn [csv_run]. unfold csv.write_header. rewrite Hw.
    rewrite Hwritten by reflexivity. cbn [csv.stream_].
    rewrite !string_append_assoc. reflexivity.
Qed.

Lemma csv_writer_protocol_witness :
  csv_run [WriteRow ["x"%string]; WriteRow ["y"%string]]
    {| csv.stream_ := EmptyString; csv.header_written_ := false |}
  = Throws "CSV header must be written before rows"
  /\ csv_run [WriteHeader ["b"%string]; WriteRow ["1,5"%string]]
       {| csv.stream_ := "a,b"%string; csv.header_written_ := true |}
     = Returns
         {| csv.stream_ :=
              ("a,b"
               ++ csv_row_lines [WriteHeader ["b"%string];
                                 WriteRow ["1,5"%string]])%string;
            csv.header_written_ := true |}
  /\ csv_run [WriteHeader ["a"%string]; WriteRow ["1"%string]]
       {| csv.stream_ := EmptyString; csv.header_written_ := false |}
     = Returns
         {| csv.stream_ :=
              (csv.join_fields ["a"%string] ++ String csv.lf EmptyString
               ++ csv_row_lines [WriteRow ["1"%string]])%string;
            csv.header_written_ := true |}.
Proof.
  split; [| split].
  - apply (proj1 (csv_writer_protocol [WriteRow ["y"%string]]
                    {| csv.stream_ := EmptyString;
                       csv.header_written_ := false |})).
    reflexivity.
  - apply (proj1 (proj2 (csv_writer_protocol
                           [WriteHeader ["b"%string]; WriteRow ["1,5"%string]]
                           {| csv.stream_ := "a,b"%string;
                              csv.header_written_ := true |}))).
    reflexivity.
  - apply (proj2 (proj2 (csv_writer_protocol [WriteRow ["1"%string]]
                           {| csv.stream_ := EmptyString;
                              csv.header_written_ := false |}))).
    reflexivity.
Defined.

(** ** Strings in JSON *)

Section JsonStrings.

Lemma parse_escaped (s rest : string) :
  json.parse_string_chars (json.escape_chars s ++ rest)%string
  = Returns (s, rest).
Proof.
  induction s as [| c s IH]; [reflexivity |].
  cbn [json.escape_chars].
  destruct (c =? csv.dquote)%char eqn:Hq; cbn [orb].
  - apply Ascii.eqb_eq in Hq. subst c.
    rewrite !append_cons. cbn [json.parse_string_chars].
    change ("\" =? csv.dquote)%char with false.
    change ("\" =? "\")%char with true.
    change (csv.dquote =? csv.dquote)%char with true.
    cbv iota. rewrite IH. reflexivity.
  - destruct (c =? "\")%char eqn:Hb.
    + apply Ascii.eqb_eq in Hb. subst c.
      rewrite !append_cons. cbn [json.parse_string_chars].
      change ("\" =? csv.dquote)%char with false.
      change ("\" =? "\")%char with true.
      cbv iota. rewrite IH. reflexivity.
    + rewrite !append_cons. cbn [json.parse_string_chars]. rewrite Hq, Hb, IH. reflexivity.
Qed.

(** Without a quote or a backslash the loop reads to the end of the
    text. *)
Lemma parse_plain (s : string) :
  (forall c, In c (list_ascii_of_string s) ->
     (c =? csv.dquote)%char = false /\ (c =? "\")%char = false) ->
  json.parse_string_chars s = Returns (s, EmptyString).
Proof.
  induction s as [| c s IH]; intros Hs; [reflexivity |].
  cbn [json.parse_string_chars].
  destruct (Hs c ltac:(left; reflexivity)) as [-> ->].
  rewrite IH; [reflexivity |].
  intros c' Hc'. apply Hs. right. exact Hc'.
Qed.

End JsonStrings.

(** X25: the JSON writer and reader agree on strings: [parse_string] on
    what [serialize_simple] writes for a string [s], followed by any
    text, returns [s] and stops right after the closing quote.  The reader
    does not ask for that quote: an opening quote followed by text with no
    quote and no backslash is read as a string to the end of the input. *)
Theorem json_string_round_trip (s rest : string) :
  json.parse_string (json.serialize_string s ++ rest)%string
  = Returns (s, rest)
  /\ ((forall c, In c (list_ascii_of_string s) ->
         (c =? csv.dquote)%char = false /\ (c =? "\")%char = false) ->
      json.parse_string (String csv.dquote s) = Returns (s, EmptyString)).
Proof.
  split.
  - unfold json.parse_string, json.serialize_string.
    rewrite append_cons. cbn [json.skip_ws].
    change (json.isspace csv.dquote) with false. cbv iota.
    change (csv.dquote =? csv.dquote)%char with true. cbv iota.
    apply parse_escaped.
  - intros Hs. unfold json.parse_string. cbn [json.skip_ws].
    change (json.isspace csv.dquote) with false. cbv iota.
    change (csv.dquote =? csv.dquote)%char with true. cbv iota.
    apply parse_plain, Hs.
Qed.

Lemma json_string_round_trip_witness :
  json.parse_string (json.serialize_string "fp64" ++ ":1")%string
  = Returns ("fp64"%string, ":1"%string)
  /\ json.parse_string (String csv.dquote "fp64")
     = Returns ("fp64"%string, EmptyString).
Proof.
  destruct (json_string_round_trip "fp64" ":1") as [Hrt Hopen].
  split; [exact Hrt |]. apply Hopen.
  intros c Hc. simpl in Hc.
  repeat (destruct Hc as [<- | Hc]; [split; reflexivity |]). contradiction.
Defined.
